(** * sinopia: lib/storage.js

    A shallow embedding of the storage facade of the registry
    (lib/storage.js) and the properties of its specification.

    JavaScript objects used as dictionaries are finite maps keyed by
    strings.  Node-style callbacks [cb(err, value)] are return values.
    The collaborators that storage.js only calls (the local store, the
    uplink clients, the helpers of lib/utils.js) are records of oracles:
    what each call hands to its callback.  An uncaught [TypeError] is the
    [None] of an option or a constructor named [Thrown]. *)

From Stdlib Require Import ZArith String List Lia.
From stdpp Require Import base option list gmap strings fin_maps fin_sets.

#[global] Set Warnings "-clear-no-such-hyp".

(** ** http-errors *)

Record HttpError := mkError { status : option Z; message : string }.

(** [Error(message)]: [Error] is bound to http-errors (line 3), which
    gives an error made without a code the status 500. *)
Definition Error (message : string) : HttpError :=
  {| status := Some 500%Z; message := message |}.

(** An error that http-errors did not make (a [TypeError], an assertion
    that failed, an error of node): it has no status. *)
Definition PlainError (message : string) : HttpError :=
  {| status := None; message := message |}.

(** [Error[code](message)] *)
Definition ErrorWith (code : Z) (message : string) : HttpError :=
  {| status := Some code; message := message |}.

(** [err.status === code] *)
Definition status_is (err : HttpError) (code : Z) : bool :=
  bool_decide (status err = Some code).

(** [!err.status]: the status is undefined or zero. *)
Definition no_status (err : HttpError) : bool :=
  match status err with
  | None => true
  | Some s => bool_decide (s = 0%Z)
  end.

(** [err.status >= n] (false when the status is undefined). *)
Definition status_ge (err : HttpError) (n : Z) : bool :=
  match status err with
  | None => false
  | Some s => bool_decide (n ≤ s)%Z
  end.

(** ** Package documents *)

(** A version object is structured metadata that storage.js never looks
    into; it is kept as its serialised body. *)
Inductive VersionObject := Version (json : string).

(** A dist-tag is a version string, or a list of candidates while
    documents are being merged. *)
Inductive TagVal := TagStr (v : string) | TagList (l : list string).

Record UplinkRecord := { etag : option string; fetched : option Z }.

Record DistFile := { url : string }.

(** The properties of a package document.  [versions] and [dist-tags] are
    always there; the other named properties may be missing; [others]
    holds every further own property (time, maintainers, ...). *)
Record Doc := mkDoc {
  _rev : option string;
  name : option string;
  versions : gmap string VersionObject;
  dist_tags : gmap string TagVal;
  readme : option string;
  _uplinks : option (gmap string UplinkRecord);
  _distfiles : option (gmap string DistFile);
  _attachments : option (gmap string string);
  others : gmap string string
}.

Definition set_versions (v : gmap string VersionObject) (d : Doc) : Doc :=
  mkDoc (_rev d) (name d) v (dist_tags d) (readme d) (_uplinks d)
        (_distfiles d) (_attachments d) (others d).

Definition set_dist_tags (t : gmap string TagVal) (d : Doc) : Doc :=
  mkDoc (_rev d) (name d) (versions d) t (readme d) (_uplinks d)
        (_distfiles d) (_attachments d) (others d).

Definition set_readme (r : option string) (d : Doc) : Doc :=
  mkDoc (_rev d) (name d) (versions d) (dist_tags d) r (_uplinks d)
        (_distfiles d) (_attachments d) (others d).

Definition set_uplinks (u : option (gmap string UplinkRecord)) (d : Doc) : Doc :=
  mkDoc (_rev d) (name d) (versions d) (dist_tags d) (readme d) u
        (_distfiles d) (_attachments d) (others d).

Definition set_attachments (a : option (gmap string string)) (d : Doc) : Doc :=
  mkDoc (_rev d) (name d) (versions d) (dist_tags d) (readme d) (_uplinks d)
        (_distfiles d) a (others d).

(** The own property names of a document ([for (var i in result)]). *)
Definition present {A} (key : string) (o : option A) : gset string :=
  match o with Some _ => {[ key ]} | None => ∅ end.

Definition own_keys (d : Doc) : gset string :=
  {[ "versions"; "dist-tags" ]}
  ∪ present "_rev" (_rev d) ∪ present "name" (name d)
  ∪ present "readme" (readme d) ∪ present "_uplinks" (_uplinks d)
  ∪ present "_distfiles" (_distfiles d)
  ∪ present "_attachments" (_attachments d)
  ∪ dom (others d).

Definition unless_key {A} (i key : string) (o : option A) : option A :=
  if bool_decide (i = key) then None else o.

(** [delete result[i]], for the properties that may be missing. *)
Definition delete_key (i : string) (d : Doc) : Doc :=
  mkDoc (unless_key i "_rev" (_rev d)) (unless_key i "name" (name d))
        (versions d) (dist_tags d)
        (unless_key i "readme" (readme d))
        (unless_key i "_uplinks" (_uplinks d))
        (unless_key i "_distfiles" (_distfiles d))
        (unless_key i "_attachments" (_attachments d))
        (delete i (others d)).

(** ** Configuration and collaborators *)

Record Config := {
  ignore_latest_tag : bool;
  proxy_access : string → string → bool;
  localList : list string
}.

(** The [options] object handed down to the stores; storage.js itself
    only writes its [etag]. *)
Record Options := { o_etag : option string }.

Definition no_options : Options := {| o_etag := None |}.

(** lib/utils.js is not part of the verified file.  Its helpers are
    parameters: [semver_sort] filters and sorts version strings in
    ascending semantic order; [tag_version data version tag config]
    reconciles one tag of [data['dist-tags']] with a candidate and tells
    whether the tag was updated (spec 4.1, 4.2); [validate_metadata]
    returns the error it throws, if any.  A call of [tag_version] may
    throw as well: [tag_version_throws] is the error it throws, if any,
    and the table given by [tag_version] is then the table as the call
    left it. *)
Class Utils := {
  semver_sort : list string → list string;
  tag_version :
    gmap string TagVal → TagVal → string → Config → gmap string TagVal * bool;
  tag_version_throws :
    gmap string TagVal → TagVal → string → Config → option HttpError;
  validate_metadata : Doc → string → option HttpError
}.

(** An uplink client (lib/up-storage.js). *)
Module Proxy.

(** What [get_package] hands to its callback: [(err, up_res, etag)], and
    the value of [Date.now()] when the callback runs. *)
Record Response := {
  err : option HttpError;
  up_res : option Doc;
  res_etag : option string;
  at_time : Z
}.

Record t := {
  upname : string;
  maxage : Z;
  get_package : string → Options → Response;
  can_fetch_url : string → bool
}.

End Proxy.

(** The local store (lib/local-storage.js). *)
Module Local.

(** [callback(err)] or [callback(null, value)]. *)
Inductive Result (A : Type) := Err (err : HttpError) | Ok (value : A).
Arguments Err {A} err.
Arguments Ok {A} value.

Record t := {
  get_package : string → Result Doc;
  add_package : string → string → option HttpError;
  update_versions : string → Doc → Result Doc
}.

End Local.

(** [new Storage(config)]: the uplinks in the order of [config.uplinks],
    each carrying its key as [upname], and the local store. *)
Record Storage := {
  config : Config;
  uplinks : list Proxy.t;
  local : Local.t
}.

(** The calls the facade issues to its collaborators, in order. *)
Inductive Effect :=
| LocalGetPackage (name : string)
| LocalAddPackage (name metadata : string)
| LocalUpdateVersions (name : string) (pkginfo : Doc)
| UplinkGetPackage (upname name : string) (_options : Options).

(** One uplink request in flight: the position of the uplink in the
    list given to [async.map], the uplink and the options sent. *)
Record Request := { index : nat; up : Proxy.t; _options : Options }.

(** The event loop: the clock when a synchronisation pass starts, and the
    order in which the requests in flight complete. *)
Record Loop := {
  now : Z;
  completion : list Request → list Request
}.

(** ** The operations of storage.js *)

Section storage.
Context `{Utils}.

(** *** [Storage._merge_versions] *)

(** [for (var i in up.versions) if (local.versions[i] == null)
    local.versions[i] = up.versions[i]].  The values of a versions table
    are objects, so [== null] holds exactly when the key is missing. *)
Definition copy_new_versions
  (local_versions up_versions : gmap string VersionObject)
  : gmap string VersionObject :=
  map_fold (λ i v acc,
              match acc !! i with
              | None => <[ i := v ]> acc
              | Some _ => acc
              end)
           local_versions up_versions.

(** [for (var i in up['dist-tags'])]: one call of [tag_version] per tag of
    the remote document; the readme follows an updated [latest]. *)
Definition refresh_tag (up : Doc) (config : Config)
  (i : string) (v : TagVal) (local : Doc) : Doc :=
  let r := tag_version (dist_tags local) v i config in
  let local := set_dist_tags r.1 local in
  if bool_decide (i = "latest") && r.2
  then set_readme (readme up) local
  else local.

Definition _merge_versions (local up : Doc) (config : Config) : Doc :=
  let local :=
    set_versions (copy_new_versions (versions local) (versions up)) local in
  map_fold (refresh_tag up config) local (dist_tags up).

(** The same loop over the remote tags where it runs inside [try]: the
    first call of [tag_version] that throws ends the loop, and the
    document stays as that call left it. *)
Definition try_refresh_tag (up : Doc) (config : Config)
  (i : string) (v : TagVal) (acc : Doc * option HttpError)
  : Doc * option HttpError :=
  match acc.2 with
  | Some _ => acc
  | None =>
      match tag_version_throws (dist_tags acc.1) v i config with
      | Some err =>
          (set_dist_tags (tag_version (dist_tags acc.1) v i config).1 acc.1,
           Some err)
      | None => (refresh_tag up config i v acc.1, None)
      end
  end.

(** [try { Storage._merge_versions(pkginfo, up_res, self.config) }
    catch(err)]: the document as the merge left it, and the error that
    was caught, if any. *)
Definition try_merge_versions (local up : Doc) (config : Config)
  : Doc * option HttpError :=
  map_fold (try_refresh_tag up config)
    (set_versions (copy_new_versions (versions local) (versions up)) local,
     None)
    (dist_tags up).

(** *** [Storage.prototype._sync_package_with_uplinks] *)

(** What the callback of the synchronisation receives:
    [callback(err, result, uplink_errors)] with missing arguments
    undefined, unless a [TypeError] escaped. *)
Inductive SyncResult :=
| SyncThrown
| SyncCallback (err : option HttpError) (result : option Doc)
               (uplink_errors : option (list (option HttpError))).

(** The variables [pkginfo] and [exists] shared by the callbacks. *)
Record SyncState := { st_pkginfo : Doc; st_exists : bool }.

(** The skeleton used when no local document is given. *)
Definition skeleton (name : string) : Doc :=
  {| _rev := None; name := Some name; versions := ∅; dist_tags := ∅;
     readme := None; _uplinks := Some ∅; _distfiles := None;
     _attachments := None; others := ∅ |}.

(** [fetched && fetched > (Date.now() - up.maxage)] *)
Definition is_fresh (now : Z) (up : Proxy.t) (r : UplinkRecord) : bool :=
  match fetched r with
  | Some f => negb (bool_decide (f = 0%Z))
              && bool_decide (now - Proxy.maxage up < f)%Z
  | None => false
  end.

Inductive Dispatch := Skip | Call (_options : Options).

(** The part of the iterator that runs before the request is sent.
    [None]: [pkginfo._uplinks] is undefined and the lookup throws. *)
Definition dispatch (now : Z) (pkginfo : Doc) (options : Options)
  (up : Proxy.t) : option Dispatch :=
  table ← _uplinks pkginfo;
  match table !! Proxy.upname up with
  | Some r =>
      if is_fresh now up r then Some Skip
      else Some (Call {| o_etag := etag r |})
  | None => Some (Call options)
  end.

(** [pkginfo._uplinks[up.upname].fetched = Date.now()] *)
Definition touch_fetched (upname : string) (at_time : Z) (pkginfo : Doc)
  : option Doc :=
  table ← _uplinks pkginfo;
  r ← table !! upname;
  Some (set_uplinks
          (Some (<[ upname := {| etag := etag r; fetched := Some at_time |} ]> table))
          pkginfo).

(** [pkginfo._uplinks[up.upname] = { etag: etag, fetched: Date.now() }] *)
Definition store_record (upname : string) (r : UplinkRecord) (pkginfo : Doc)
  : option Doc :=
  table ← _uplinks pkginfo;
  Some (set_uplinks (Some (<[ upname := r ]> table)) pkginfo).

(** The callback of [up.get_package].  It returns the new state and what
    is passed to [cb] as the result of this uplink: [None] for [cb()],
    [Some err] for [cb(null, [err])].  When the merge throws, the record
    written before it and what the merge had done stay in [pkginfo],
    [exists] is left as it is, and the error caught is the result. *)
Definition on_response (config : Config) (name : string) (up : Proxy.t)
  (r : Proxy.Response) (st : SyncState)
  : option (SyncState * option HttpError) :=
  pkginfo1 ←
    match Proxy.err r with
    | Some err =>
        if status_is err 304
        then touch_fetched (Proxy.upname up) (Proxy.at_time r) (st_pkginfo st)
        else Some (st_pkginfo st)
    | None => Some (st_pkginfo st)
    end;
  let st1 := {| st_pkginfo := pkginfo1; st_exists := st_exists st |} in
  match Proxy.err r, Proxy.up_res r with
  | Some err, _ => Some (st1, Some err)
  | None, None => Some (st1, Some (Error "no data"))
  | None, Some up_res =>
      match validate_metadata up_res name with
      | Some err => Some (st1, Some err)
      | None =>
          pkginfo2 ←
            store_record (Proxy.upname up)
              {| etag := Proxy.res_etag r; fetched := Some (Proxy.at_time r) |}
              pkginfo1;
          let m := try_merge_versions pkginfo2 up_res config in
          match m.2 with
          | Some err =>
              Some ({| st_pkginfo := m.1; st_exists := st_exists st |}, Some err)
          | None => Some ({| st_pkginfo := m.1; st_exists := true |}, None)
          end
      end
  end.

(** The requests that [async.map] leaves in flight after it has called
    the iterator on every uplink, in that order. *)
Definition requests (plan : list (Proxy.t * Dispatch)) : list Request :=
  omap id
    (imap (λ i p, match p.2 with
                  | Call o => Some {| index := i; up := p.1; _options := o |}
                  | Skip => None
                  end) plan).

(** One completed request: its callback runs, and [async.map] stores the
    result at the position of the uplink. *)
Definition complete (config : Config) (name : string) (rq : Request)
  (acc : SyncState * list (option HttpError))
  : option (SyncState * list (option HttpError)) :=
  r ← on_response config name (up rq)
        (Proxy.get_package (up rq) name (_options rq)) acc.1;
  Some (r.1, <[ index rq := r.2 ]> acc.2).

Fixpoint run_callbacks (config : Config) (name : string)
  (rqs : list Request) (acc : SyncState * list (option HttpError))
  : option (SyncState * list (option HttpError)) :=
  match rqs with
  | [] => Some acc
  | rq :: rqs => acc ← complete config name rq acc;
                 run_callbacks config name rqs acc
  end.

Definition permitted (self : Storage) (name : string) : list Proxy.t :=
  List.filter (λ up, proxy_access (config self) name (Proxy.upname up))
              (uplinks self).

Definition _sync_package_with_uplinks (self : Storage) (loop : Loop)
  (name : string) (pkginfo : option Doc) (options : Options)
  : list Effect * SyncResult :=
  let st0 := {| st_pkginfo := default (skeleton name) pkginfo;
                st_exists := bool_decide (is_Some pkginfo) |} in
  let uplinks := permitted self name in
  match mapM (λ up, pair up <$> dispatch (now loop) (st_pkginfo st0) options up)
             uplinks with
  | None => ([], SyncThrown)
  | Some plan =>
      let rqs := requests plan in
      let calls :=
        (λ rq, UplinkGetPackage (Proxy.upname (up rq)) name (_options rq))
          <$> rqs in
      match run_callbacks (config self) name (completion loop rqs)
              (st0, replicate (length uplinks) None) with
      | None => (calls, SyncThrown)
      | Some (st, uplink_errors) =>
          if st_exists st then
            (calls ++ [LocalUpdateVersions name (st_pkginfo st)],
             match Local.update_versions (local self) name (st_pkginfo st) with
             | Local.Err err => SyncCallback (Some err) None None
             | Local.Ok pkginfo =>
                 SyncCallback None (Some pkginfo) (Some uplink_errors)
             end)
          else
            (calls,
             SyncCallback (Some (ErrorWith 404 "no such package available"))
                          None (Some uplink_errors))
      end
  end.

(** *** [Storage.prototype.add_package] *)

(** What the caller of a publishing operation sees: [callback(err)],
    unless a [TypeError] escaped. *)
Inductive Done := DoneThrown | DoneCallback (err : option HttpError).

Definition check_package_local (self : Storage) (name : string)
  : option HttpError :=
  match Local.get_package (local self) name with
  | Local.Err err => if negb (status_is err 404) then Some err else None
  | Local.Ok results => Some (ErrorWith 409 "this package is already present")
  end.

(** The loop over [err_results]; [err_results[i][0]] throws on an entry
    left undefined by [cb()]. *)
Fixpoint check_err_results (err_results : list (option HttpError)) : Done :=
  match err_results with
  | [] => DoneCallback None
  | None :: _ => DoneThrown
  | Some err :: err_results =>
      if negb (status_is err 404)
      then DoneCallback
             (Some (ErrorWith 503 "one of the uplinks is down, refuse to publish"))
      else check_err_results err_results
  end.

Definition check_package_remote (self : Storage) (loop : Loop) (name : string)
  : list Effect * Done :=
  let r := _sync_package_with_uplinks self loop name None no_options in
  (r.1,
   match r.2 with
   | SyncThrown => DoneThrown
   | SyncCallback err results err_results =>
       let weird :=
         match err with
         | Some e => negb (status_is e 404)
         | None => false
         end in
       if weird then DoneCallback err
       else
         match results, err_results with
         | Some _, _ =>
             DoneCallback (Some (ErrorWith 409 "this package is already present"))
         | None, Some err_results => check_err_results err_results
         | None, None => DoneThrown
         end
   end).

Definition add_package (self : Storage) (loop : Loop) (name metadata : string)
  : list Effect * Done :=
  match check_package_local self name with
  | Some err => ([LocalGetPackage name], DoneCallback (Some err))
  | None =>
      let r := check_package_remote self loop name in
      match r.2 with
      | DoneCallback None =>
          (LocalGetPackage name :: r.1 ++ [LocalAddPackage name metadata],
           DoneCallback (Local.add_package (local self) name metadata))
      | failed => (LocalGetPackage name :: r.1, failed)
      end
  end.

(** *** [Storage.prototype.get_package] *)

Definition whitelist : list string :=
  ["_rev"; "name"; "versions"; "dist-tags"; "readme"].

(** [for (var i in result) if (whitelist.indexOf(i) === -1) delete result[i]] *)
Definition project_whitelist (result : Doc) : Doc :=
  set_fold (λ i result,
              if bool_decide (i ∈ whitelist) then result
              else delete_key i result)
           result (own_keys result).

(** [!result['dist-tags'].latest]: arrays are truthy, also empty ones. *)
Definition no_latest (tags : gmap string TagVal) : bool :=
  match tags !! "latest" with
  | None => true
  | Some (TagStr v) => bool_decide (v = "")
  | Some (TagList _) => false
  end.

(** The body of the loop over the tags: a list is replaced by its last
    element, and the tag is deleted when there is none. *)
Definition collapse (v : TagVal) : option TagVal :=
  match v with
  | TagStr v => Some (TagStr v)
  | TagList l => TagStr <$> last l
  end.

(** [Object.keys(result.versions)] *)
Definition version_keys (result : Doc) : list string :=
  (map_to_list (versions result)).*1.

Definition post_process (config : Config) (result : Doc) : Doc :=
  let result := project_whitelist result in
  let tags := dist_tags result in
  let tags :=
    if ignore_latest_tag config || no_latest tags
    then <[ "latest" := TagList (semver_sort (version_keys result)) ]> tags
    else tags in
  set_attachments (Some ∅) (set_dist_tags (omap collapse tags) result).

Definition get_package (self : Storage) (loop : Loop) (name : string)
  (options : Options) : list Effect * SyncResult :=
  let r := Local.get_package (local self) name in
  let internal :=
    match r with
    | Local.Err err => if no_status err || status_ge err 500 then Some err
                       else None
    | Local.Ok _ => None
    end in
  match internal with
  | Some err => ([LocalGetPackage name], SyncCallback (Some err) None None)
  | None =>
      let data := match r with Local.Ok data => Some data | _ => None end in
      let s := _sync_package_with_uplinks self loop name data options in
      (LocalGetPackage name :: s.1,
       match s.2 with
       | SyncThrown => SyncThrown
       | SyncCallback (Some err) _ _ => SyncCallback (Some err) None None
       | SyncCallback None (Some result) uplink_errors =>
           SyncCallback None (Some (post_process (config self) result))
                        uplink_errors
       | SyncCallback None None _ => SyncThrown
       end)
  end.

(** *** [Storage.prototype.get_tarball] *)

(** The uplink that serves a file: a configured one, or
    [Proxy({ url: file.url, _autogenerated: true }, config)]. *)
Inductive ServingUplink :=
| Configured (uplink : Proxy.t)
| Autogenerated (url : string).

(** [for (var p in self.uplinks)
       if (self.uplinks[p].can_fetch_url(file.url)) uplink = self.uplinks[p]] *)
Definition select_uplink (uplinks : list Proxy.t) (file : DistFile)
  : option Proxy.t :=
  fold_left (λ uplink p,
               if Proxy.can_fetch_url p (url file) then Some p else uplink)
            uplinks None.

(** The uplink [serve_file] reads the file from. *)
Definition serve_file (self : Storage) (file : DistFile) : ServingUplink :=
  match select_uplink (uplinks self) file with
  | Some uplink => Configured uplink
  | None => Autogenerated (url file)
  end.

(** The events of the local read stream, and what [get_tarball] does to
    the stream it returned. *)
Inductive StreamEvent :=
| EvError (err : HttpError)
| EvContentLength (v : Z)
| EvOpen.

Inductive StreamOut :=
| OutError (err : HttpError)
| OutContentLength (v : Z)
| OutPipeLocal
| OutServe (uplink : ServingUplink) (file : DistFile).

Record TarballState := {
  is_open : bool;
  rstream : bool;   (* false once [rstream = null] *)
  output : list StreamOut;
  effects : list Effect
}.

Definition emit (o : StreamOut) (st : TarballState) : TarballState :=
  {| is_open := is_open st; rstream := rstream st;
     output := output st ++ [o]; effects := effects st |}.

(** [info._distfiles && info._distfiles[filename]] *)
Definition distfile (info : Doc) (filename : string) : option DistFile :=
  table ← _distfiles info; table !! filename.

(** The local stream reported 404 before it opened: find out where the
    file can be fetched from.  [None]: a [TypeError] escaped. *)
Definition locate (self : Storage) (loop : Loop) (name filename : string)
  (err404 : HttpError) : list Effect * option StreamOut :=
  let r := Local.get_package (local self) name in
  let info := match r with Local.Ok info => Some info | _ => None end in
  match info ≫= (λ info, distfile info filename) with
  | Some file => ([LocalGetPackage name], Some (OutServe (serve_file self file) file))
  | None =>
      let s := _sync_package_with_uplinks self loop name info no_options in
      (LocalGetPackage name :: s.1,
       match s.2 with
       | SyncThrown => None
       | SyncCallback (Some err) _ _ => Some (OutError err)
       | SyncCallback None (Some info) _ =>
           match distfile info filename with
           | None => Some (OutError err404)
           | Some file => Some (OutServe (serve_file self file) file)
           end
       | SyncCallback None None _ => None
       end)
  end.

(** The three handlers installed on the local read stream. *)
Definition on_rstream (self : Storage) (loop : Loop) (name filename : string)
  (ev : StreamEvent) (st : TarballState) : option TarballState :=
  match ev with
  | EvError err =>
      if is_open st || negb (status_is err 404) then Some (emit (OutError err) st)
      else if rstream st then
        let r := locate self loop name filename err in
        out ← r.2;
        Some {| is_open := is_open st; rstream := false;
                output := output st ++ [out];
                effects := effects st ++ r.1 |}
      else None
  | EvContentLength v => Some (emit (OutContentLength v) st)
  | EvOpen =>
      if rstream st
      then Some {| is_open := true; rstream := true;
                   output := output st ++ [OutPipeLocal];
                   effects := effects st |}
      else None
  end.

Definition get_tarball_start : TarballState :=
  {| is_open := false; rstream := true; output := []; effects := [] |}.

(** [get_tarball] followed by the events of the local stream. *)
Fixpoint get_tarball (self : Storage) (loop : Loop) (name filename : string)
  (events : list StreamEvent) (st : TarballState) : option TarballState :=
  match events with
  | [] => Some st
  | ev :: events =>
      st ← on_rstream self loop name filename ev st;
      get_tarball self loop name filename events st
  end.

(** *** [Storage.prototype.get_local] *)

(** [Array.isArray(info['dist-tags'].latest)
       ? Utils.semver_sort(info['dist-tags'].latest).pop()
       : info['dist-tags'].latest] *)
Definition latest_of (info : Doc) : option string :=
  match dist_tags info !! "latest" with
  | Some (TagList l) => last (semver_sort l)
  | Some (TagStr v) => Some v
  | None => None
  end.

(** [info.versions[latest]]; an undefined key reads the property
    named "undefined". *)
Definition latest_version (info : Doc) : option VersionObject :=
  versions info !! default "undefined" (latest_of info).

Record Listing := {
  calls : list Effect;
  warnings : list string;
  callback_err : option HttpError;
  packages : list VersionObject
}.

(** [getPackage(i)] on [rest = locals.slice(i)], which is not empty:
    [i >= locals.length - 1] holds when the tail of [rest] is empty. *)
Fixpoint getPackage (self : Storage) (rest : list string)
  (calls : list Effect) (warnings : list string)
  (packages : list VersionObject) : Listing :=
  match rest with
  | [] => {| calls := calls; warnings := warnings;
             callback_err := None; packages := packages |}
  | name :: rest =>
      let calls := calls ++ [LocalGetPackage name] in
      match Local.get_package (local self) name with
      | Local.Ok info =>
          match latest_version info with
          | Some v => getPackage self rest calls warnings (packages ++ [v])
          | None => getPackage self rest calls (warnings ++ [name]) packages
          end
      | Local.Err _ => getPackage self rest calls warnings packages
      end
  end.

Definition get_local (self : Storage) : Listing :=
  getPackage self (localList (config self)) [] [] [].

End storage.

(** ** Notions used by the statements *)

(** The loop over the remote tags touches the tags and the readme only. *)
Definition same_frame (d d' : Doc) : Prop :=
  _rev d' = _rev d ∧ name d' = name d ∧ versions d' = versions d
  ∧ _uplinks d' = _uplinks d ∧ _distfiles d' = _distfiles d
  ∧ _attachments d' = _attachments d ∧ others d' = others d.




(** The error with which the callback of [up.get_package] turns an
    answer down before it merges anything: the error handed over by the
    uplink, the error for a missing document, or the error thrown by the
    validation. *)
Definition response_error `{Utils} (name : string) (r : Proxy.Response)
  : option HttpError :=
  match Proxy.err r, Proxy.up_res r with
  | Some err, _ => Some err
  | None, None => Some (Error "no data")
  | None, Some up_res => validate_metadata up_res name
  end.

(** [Utils.tag_version] throws [err] on a tag of the document, for some
    table of local tags. *)
Definition merge_throws `{Utils} (config : Config) (up : Doc)
  (err : HttpError) : Prop :=
  ∃ tags tag v, dist_tags up !! tag = Some v
                ∧ tag_version_throws tags v tag config = Some err.

(** [Utils.tag_version] throws on no tag of the document, whatever the
    local tags are. *)
Definition reconciles `{Utils} (config : Config) (up : Doc) : Prop :=
  ∀ tags tag v, dist_tags up !! tag = Some v →
                tag_version_throws tags v tag config = None.

(** What the callback of [up.get_package] may hand to [cb] for an
    answer: the error that turns the answer down; or, for a valid
    document, nothing, or the error caught while it was merged. *)
Definition slot_of `{Utils} (config : Config) (name : string)
  (r : Proxy.Response) (slot : option HttpError) : Prop :=
  match response_error name r with
  | Some err => slot = Some err
  | None =>
      slot = None
      ∨ ∃ up_res err, Proxy.up_res r = Some up_res
                      ∧ merge_throws config up_res err ∧ slot = Some err
  end.

(** The uplink answered "not modified". *)
Definition not_modified (r : Proxy.Response) : bool :=
  match Proxy.err r with
  | Some err => status_is err 304
  | None => false
  end.

(** The scheduler runs the callback of every request in flight once. *)
Definition completes_each_once (loop : Loop) : Prop :=
  ∀ rqs, completion loop rqs ≡ₚ rqs.

(** The answer to a request in flight. *)
Definition request_answer (name : string) (rq : Request) : Proxy.Response :=
  Proxy.get_package (up rq) name (_options rq).

(** The answer carries a valid document. *)
Definition request_valid `{Utils} (name : string) (rq : Request) : bool :=
  bool_decide (response_error name (request_answer name rq) = None).

(** The errors of [add_package]. *)
Definition Conflict : HttpError :=
  ErrorWith 409 "this package is already present".

Definition ServiceUnavailable : HttpError :=
  ErrorWith 503 "one of the uplinks is down, refuse to publish".

(** The call is one that a synchronisation pass issues. *)
Definition sync_effect (name : string) (e : Effect) : Prop :=
  (∃ upname _options, e = UplinkGetPackage upname name _options)
  ∨ (∃ pkginfo, e = LocalUpdateVersions name pkginfo).

(** The registry in which the uplinks named [upname] answer as
    [get_package] says; everything else is left as it is. *)
Definition answering (get_package : string → Options → Proxy.Response)
  (u : Proxy.t) : Proxy.t :=
  {| Proxy.upname := Proxy.upname u; Proxy.maxage := Proxy.maxage u;
     Proxy.get_package := get_package;
     Proxy.can_fetch_url := Proxy.can_fetch_url u |}.

Definition with_answers (upname : string)
  (get_package : string → Options → Proxy.Response) (self : Storage)
  : Storage :=
  {| config := config self;
     uplinks := (λ u, if bool_decide (Proxy.upname u = upname)
                      then answering get_package u else u) <$> uplinks self;
     local := local self |}.

(** What [get_local] makes of one name of the local list: the latest
    version of a package that loads, and the warning for a package that
    loads without one. *)
Definition listed (self : Storage) `{Utils} (name : string)
  : option VersionObject :=
  match Local.get_package (local self) name with
  | Local.Ok info => latest_version info
  | Local.Err _ => None
  end.

Definition warned (self : Storage) `{Utils} (name : string) : option string :=
  match Local.get_package (local self) name with
  | Local.Ok info =>
      match latest_version info with
      | Some _ => None
      | None => Some name
      end
  | Local.Err _ => None
  end.

(** ** More of storage.js *)

Section storage_more.
Context `{Utils}.

(** *** [serve_file]: streaming a file from the uplink *)

(** The events of the write stream of the local cache ([savestream]) and
    of the read stream of the uplink ([rstream2]). *)
Inductive ServeEvent :=
| SaveOpen
| SaveError (err : HttpError)
| UpError (err : HttpError)
| UpEnd
| UpContentLength (v : Z).

(** What [serve_file] and its handlers call. *)
Inductive ServeAction :=
| AddTarball (name filename : string)
| GetUrl (uplink : ServingUplink) (url : string)
| PipeToStream
| PipeToSave
| SaveAbort
| SaveDone
| SaveContentLength (v : Z)
| EmitError (err : HttpError)
| EmitContentLength (v : Z)
| Warn (err : HttpError).

(** The variables of the closure: [savestream] (false once it is null),
    whether [on_open] was replaced by the empty function, and the calls
    made so far. *)
Record ServeState := {
  savestream : bool;
  started : bool;
  actions : list ServeAction
}.

Definition serve_file_start (name filename : string) : ServeState :=
  {| savestream := true; started := false;
     actions := [AddTarball name filename] |}.

(** [on_open()]: the first call opens the stream of the uplink and pipes
    it; later calls do nothing. *)
Definition on_open (uplink : ServingUplink) (file : DistFile)
  (st : ServeState) : ServeState :=
  if started st then st
  else {| savestream := savestream st; started := true;
          actions := actions st ++ [GetUrl uplink (url file); PipeToStream]
                     ++ (if savestream st then [PipeToSave] else []) |}.

(** [if (savestream) savestream.abort(); savestream = null] *)
Definition abort_save (st : ServeState) : ServeState :=
  {| savestream := false; started := started st;
     actions := actions st ++ (if savestream st then [SaveAbort] else []) |}.

Definition act (a : ServeAction) (st : ServeState) : ServeState :=
  {| savestream := savestream st; started := started st;
     actions := actions st ++ [a] |}.

(** The handlers.  The stream of the uplink exists once [on_open] has
    run; before that it has no events. *)
Definition on_serve_event (uplink : ServingUplink) (file : DistFile)
  (ev : ServeEvent) (st : ServeState) : ServeState :=
  match ev with
  | SaveOpen => on_open uplink file st
  | SaveError err => on_open uplink file (abort_save (act (Warn err) st))
  | UpError err =>
      if started st then act (EmitError err) (abort_save st) else st
  | UpEnd =>
      if started st && savestream st then act SaveDone st else st
  | UpContentLength v =>
      if started st then
        let st := act (EmitContentLength v) st in
        if savestream st then act (SaveContentLength v) st else st
      else st
  end.

(** [serve_file(file)] followed by the events of the two streams. *)
Definition serve (self : Storage) (name filename : string) (file : DistFile)
  (events : list ServeEvent) : ServeState :=
  foldl (λ st ev, on_serve_event (serve_file self file) file ev st)
        (serve_file_start name filename) events.

(** *** [Storage.prototype.search] *)

(** An entry of the search result: the summary an uplink sent, kept as
    it came, or the summary made of the latest version of a local
    package, kept as the values it is made of ([latest],
    [data.versions[latest]] and [item.time]). *)
Inductive SearchEntry :=
| RemoteEntry (json : string)
| LocalEntry (latest : option string) (version : VersionObject) (time : Z).

(** What [uplink.request] hands to its callback: [(err, res, body)]. *)
Record Answer := {
  request_err : option HttpError;
  statusCode : Z;
  body : gmap string SearchEntry
}.

(** An item of [local.get_recent_packages]. *)
Record Recent := { item_name : string; item_time : Z }.

(** What [search] is given besides the storage: the answers of
    [uplink.request], whether [options.req.query.local] is defined, the
    answer of [local.get_recent_packages], and the order in which the
    reads of the local packages complete. *)
Record SearchWorld := {
  request : Proxy.t → Answer;
  query_local : bool;
  get_recent_packages : string → Local.Result (list Recent);
  settle : list Recent → list Recent
}.

Inductive SearchCallback :=
| SearchErr (err : HttpError)
| SearchOk (body : gmap string SearchEntry).

(** [err || Math.floor(res.statusCode / 100) > 3] *)
Definition request_failed (a : Answer) : bool :=
  match request_err a with
  | Some _ => true
  | None => bool_decide (3 < statusCode a / 100)%Z
  end.

(** [remote_search()] on [uplinks.slice(i)]: the names of the uplinks
    asked, and the body handed to [merge_with_local_packages]. *)
Fixpoint remote_search (world : SearchWorld) (uplinks : list Proxy.t)
  : list string * gmap string SearchEntry :=
  match uplinks with
  | [] => ([], ∅)
  | uplink :: uplinks =>
      if query_local world then ([], ∅)
      else
        let a := request world uplink in
        if request_failed a then
          let r := remote_search world uplinks in
          (Proxy.upname uplink :: r.1, r.2)
        else ([Proxy.upname uplink], body a)
  end.

(** The summary of a local package, when its greatest version is there. *)
Definition local_entry (data : Doc) (item : Recent) : option SearchEntry :=
  let latest := last (semver_sort (version_keys data)) in
  (λ v, LocalEntry latest v (item_time item))
    <$> versions data !! default "undefined" latest.

(** The variables shared by the callbacks of [list.forEach]: [body],
    [j], and the calls of [callback] so far. *)
Record MergeState := {
  m_body : gmap string SearchEntry;
  j : nat;
  callbacks : list SearchCallback
}.

(** The callback of one [local.get_package(item.name, ...)]. *)
Definition on_local_package (self : Storage) (listL : nat) (item : Recent)
  (st : MergeState) : MergeState :=
  match Local.get_package (local self) (item_name item) with
  | Local.Err err =>
      {| m_body := m_body st; j := j st;
         callbacks := callbacks st ++ [SearchErr err] |}
  | Local.Ok data =>
      let body :=
        match local_entry data item with
        | Some entry => <[ item_name item := entry ]> (m_body st)
        | None => m_body st
        end in
      {| m_body := body; j := S (j st);
         callbacks := callbacks st
                      ++ (if bool_decide (S (j st) = listL)
                          then [SearchOk body] else []) |}
  end.

Definition merge_with_local_packages (self : Storage) (world : SearchWorld)
  (startkey : string) (body : gmap string SearchEntry)
  : list SearchCallback :=
  match get_recent_packages world startkey with
  | Local.Err err => [SearchErr err]
  | Local.Ok list =>
      match list with
      | [] => [SearchOk body]
      | _ =>
          callbacks
            (foldl (λ st item, on_local_package self (length list) item st)
                   {| m_body := body; j := 0; callbacks := [] |}
                   (settle world list))
      end
  end.

(** [search]: the uplinks asked, and the calls of [callback]. *)
Definition search (self : Storage) (world : SearchWorld) (startkey : string)
  : list string * list SearchCallback :=
  let r := remote_search world (uplinks self) in
  (r.1, merge_with_local_packages self world startkey r.2).

End storage_more.

(** ** Notions used by the statements about streams and search *)

Definition is_get_url (a : ServeAction) : bool :=
  match a with GetUrl _ _ => true | _ => false end.

Definition is_abort (a : ServeAction) : bool :=
  match a with SaveAbort => true | _ => false end.

(** The action is a call on the write stream of the cache. *)
Definition to_save (a : ServeAction) : bool :=
  match a with
  | PipeToSave | SaveAbort | SaveDone | SaveContentLength _ => true
  | _ => false
  end.

(** The actions that follow the first [savestream.abort()]. *)
Fixpoint after_abort (l : list ServeAction) : list ServeAction :=
  match l with
  | [] => []
  | SaveAbort :: l => l
  | _ :: l => after_abort l
  end.

Definition is_save_event (ev : ServeEvent) : bool :=
  match ev with SaveOpen | SaveError _ => true | _ => false end.

(** The events that follow the first event of the cache stream, which
    is the one that opens the stream of the uplink. *)
Fixpoint after_start (events : list ServeEvent) : list ServeEvent :=
  match events with
  | [] => []
  | ev :: events => if is_save_event ev then events else after_start events
  end.

(** What reaches the stream handed to the caller, and what the stream
    of the uplink signals. *)
Inductive Signal := SigError (err : HttpError) | SigContentLength (v : Z).

Definition emitted (a : ServeAction) : option Signal :=
  match a with
  | EmitError err => Some (SigError err)
  | EmitContentLength v => Some (SigContentLength v)
  | _ => None
  end.

Definition signalled (ev : ServeEvent) : option Signal :=
  match ev with
  | UpError err => Some (SigError err)
  | UpContentLength v => Some (SigContentLength v)
  | _ => None
  end.

(** The reads of the local packages that fail, in the order in which
    they complete. *)
Definition failed_reads (self : Storage) (items : list Recent)
  : list HttpError :=
  omap (λ item, match Local.get_package (local self) (item_name item) with
                | Local.Err err => Some err
                | Local.Ok _ => None
                end) items.

(** What a pass in which no merge throws leaves at the position of an
    uplink in the list of errors: nothing for an uplink that is skipped,
    the error of the answer for one that is called. *)
Definition uplink_slot `{Utils} (now : Z) (pkginfo : Doc) (options : Options)
  (name : string) (u : Proxy.t) : option HttpError :=
  match dispatch now pkginfo options u with
  | Some (Call o) => response_error name (Proxy.get_package u name o)
  | _ => None
  end.

(** The read of a name of the local list fails. *)
Definition read_fails (self : Storage) (name : string) : bool :=
  match Local.get_package (local self) name with
  | Local.Err _ => true
  | Local.Ok _ => false
  end.

(** * Example registries *)

(** ** A stand-in for lib/utils.js *)

Fixpoint insert_sorted (v : string) (l : list string) : list string :=
  match l with
  | [] => [v]
  | w :: l' => if String.leb v w then v :: l else w :: insert_sorted v l'
  end.

(** Modelled from the spec: [Utils.semver_sort] orders version strings
    by semantic version.  The stand-in orders them as strings, which is
    the semantic order on versions whose components are single digits. *)
Definition sort_versions (l : list string) : list string :=
  foldr insert_sorted [] l.

Definition candidates (o : option TagVal) : list string :=
  match o with
  | None => []
  | Some (TagStr v) => [v]
  | Some (TagList l) => l
  end.

(** Modelled from the spec: [Utils.tag_version] "collects candidates into
    an ordered list per tag name rather than immediately picking a
    winner" and "may append the remote's version to a tie-break list
    rather than overwrite"; the tag counts as updated when the new
    candidate is the greatest of the list. *)
Definition reconcile (tags : gmap string TagVal) (v : TagVal) (tag : string)
  (config : Config) : gmap string TagVal * bool :=
  match v with
  | TagStr version =>
      let l := candidates (tags !! tag) in
      if bool_decide (version ∈ l) then (<[ tag := TagList l ]> tags, false)
      else
        let l' := sort_versions (l ++ [version]) in
        (<[ tag := TagList l' ]> tags, bool_decide (last l' = Some version))
  | TagList _ => (tags, false)
  end.

(** A stand-in for what [Utils.tag_version] throws: a candidate that is
    not one version string is rejected. *)
Definition rejects (tags : gmap string TagVal) (v : TagVal) (tag : string)
  (config : Config) : option HttpError :=
  match v with
  | TagStr _ => None
  | TagList _ => Some (PlainError "Invalid Version")
  end.

(** Modelled from the spec: [Utils.validate_metadata] checks the
    "structural integrity (name match, versions well-formed)" of a
    remote document; in a typed document only the name can be wrong. *)
Definition check_name (d : Doc) (pkg : string) : option HttpError :=
  if bool_decide (name d = Some pkg) then None
  else Some (PlainError "package.json validating error").

#[local] Instance example_utils : Utils :=
  {| semver_sort := sort_versions;
     tag_version := reconcile;
     tag_version_throws := rejects;
     validate_metadata := check_name |}.

(** ** Documents *)

Definition example_config : Config :=
  {| ignore_latest_tag := false;
     proxy_access := λ _ _, true;
     localList := ["pkg"; "gone"; "untagged"] |}.

(** The remote document of the scenarios of the spec (section 8). *)
Definition remote_doc : Doc :=
  {| _rev := Some "3-abc"; name := Some "pkg";
     versions := {[ "2.0.0" := Version "remote body of 2.0.0";
                    "2.1.0" := Version "body of 2.1.0" ]};
     dist_tags := {[ "latest" := TagStr "2.1.0" ]};
     readme := Some "remote readme";
     _uplinks := None; _distfiles := None; _attachments := None;
     others := {[ "time" := "{}" ]} |}.

Definition local_doc : Doc :=
  {| _rev := Some "1-local"; name := Some "pkg";
     versions := {[ "2.0.0" := Version "local body of 2.0.0" ]};
     dist_tags := {[ "latest" := TagStr "2.0.0" ]};
     readme := Some "local readme";
     _uplinks := Some ∅; _distfiles := None; _attachments := None;
     others := ∅ |}.

(** ** Uplinks, local stores and event loops *)

Definition answer (err : option HttpError) (up_res : option Doc)
  (res_etag : option string) (at_time : Z) : Proxy.Response :=
  {| Proxy.err := err; Proxy.up_res := up_res;
     Proxy.res_etag := res_etag; Proxy.at_time := at_time |}.

Definition not_found : HttpError :=
  ErrorWith 404 "package doesn't exist on uplink".

(** An uplink that knows the package "pkg" only. *)
Definition npmjs : Proxy.t :=
  {| Proxy.upname := "npmjs"; Proxy.maxage := 5000;
     Proxy.get_package := λ name _,
       if bool_decide (name = "pkg")
       then answer None (Some remote_doc) (Some "etag-2") 2000
       else answer (Some not_found) None None 2000;
     Proxy.can_fetch_url := String.prefix "https://registry.npmjs.org/" |}.

(** An uplink that answers "not modified" to a request with an etag and
    is down otherwise. *)
Definition mirror : Proxy.t :=
  {| Proxy.upname := "mirror"; Proxy.maxage := 5000;
     Proxy.get_package := λ _ options,
       match o_etag options with
       | Some _ => answer (Some (ErrorWith 304 "not modified")) None None 3000
       | None => answer (Some (PlainError "ETIMEDOUT")) None None 3000
       end;
     Proxy.can_fetch_url := String.prefix "https://" |}.

(** An uplink that does not know any package. *)
Definition empty_uplink : Proxy.t :=
  {| Proxy.upname := "empty"; Proxy.maxage := 5000;
     Proxy.get_package := λ _ _, answer (Some not_found) None None 2500;
     Proxy.can_fetch_url := λ _, false |}.

(** An uplink that answers the document of "pkg" for every name. *)
Definition renamed : Proxy.t :=
  {| Proxy.upname := "npmjs"; Proxy.maxage := 5000;
     Proxy.get_package := λ _ _,
       answer None (Some remote_doc) (Some "etag-2") 2000;
     Proxy.can_fetch_url := λ _, true |}.

(** An uplink that hands over neither an error nor a document. *)
Definition silent : Proxy.t :=
  {| Proxy.upname := "silent"; Proxy.maxage := 5000;
     Proxy.get_package := λ _ _, answer None None None 2000;
     Proxy.can_fetch_url := λ _, false |}.

(** A remote document that has a list of versions under a tag, and an
    uplink that answers it. *)
Definition listed_doc : Doc :=
  set_dist_tags {[ "latest" := TagList ["2.0.0"; "2.1.0"] ]} remote_doc.

Definition legacy : Proxy.t :=
  {| Proxy.upname := "legacy"; Proxy.maxage := 5000;
     Proxy.get_package := λ _ _,
       answer None (Some listed_doc) (Some "etag-9") 2000;
     Proxy.can_fetch_url := λ _, false |}.

(** A local document with the records of two uplinks. *)
Definition cached_doc : Doc :=
  set_uplinks
    (Some {[ "npmjs" := {| etag := Some "etag-1"; fetched := Some 900%Z |};
             "mirror" := {| etag := Some "m-1"; fetched := Some 100%Z |} ]})
    local_doc.

Definition cached_state : SyncState :=
  {| st_pkginfo := cached_doc; st_exists := true |}.

(** A local store that holds no package and stores what it is given. *)
Definition empty_local : Local.t :=
  {| Local.get_package := λ _, Local.Err (ErrorWith 404 "no such package available");
     Local.add_package := λ _ _, None;
     Local.update_versions := λ _ pkginfo, Local.Ok pkginfo |}.

(** The same store on a file system that refuses to write. *)
Definition readonly_local : Local.t :=
  {| Local.get_package := λ _, Local.Err (ErrorWith 404 "no such package available");
     Local.add_package := λ _ _, Some (ErrorWith 500 "EROFS");
     Local.update_versions := λ _ _, Local.Err (ErrorWith 500 "EROFS") |}.

(** A local store that holds "pkg" and "untagged"; the latter has no
    tag "latest". *)
Definition stocked_local : Local.t :=
  {| Local.get_package := λ name,
       if bool_decide (name = "pkg") then Local.Ok cached_doc
       else if bool_decide (name = "untagged")
            then Local.Ok (set_dist_tags ∅ local_doc)
            else Local.Err (ErrorWith 404 "no such package available");
     Local.add_package := λ _ _, Some (ErrorWith 409 "this package is already present");
     Local.update_versions := λ _ pkginfo, Local.Ok pkginfo |}.

Definition registry (uplinks : list Proxy.t) (local : Local.t) : Storage :=
  {| config := example_config; uplinks := uplinks; local := local |}.

(** Event loops: the answers arrive in the order of the requests, or in
    the opposite order. *)
Definition in_order : Loop := {| now := 1000; completion := id |}.

Definition last_first : Loop := {| now := 1000; completion := reverse |}.

(** A local document whose record of mirror was fetched at time zero. *)
Definition epoch_doc : Doc :=
  set_uplinks
    (Some {[ "mirror" := {| etag := Some "m-1"; fetched := Some 0%Z |} ]})
    local_doc.

(** A local store whose reads are refused. *)
Definition forbidden_local : Local.t :=
  {| Local.get_package := λ _, Local.Err (ErrorWith 403 "forbidden");
     Local.add_package := λ _ _, Some (ErrorWith 403 "forbidden");
     Local.update_versions := λ _ pkginfo, Local.Ok pkginfo |}.

(** A local store whose disk fails. *)
Definition broken_local : Local.t :=
  {| Local.get_package := λ _, Local.Err (ErrorWith 500 "EIO");
     Local.add_package := λ _ _, Some (ErrorWith 500 "EIO");
     Local.update_versions := λ _ _, Local.Err (ErrorWith 500 "EIO") |}.

(** A tarball that both npmjs and mirror can fetch. *)
Definition tarball : DistFile :=
  {| url := "https://registry.npmjs.org/pkg/-/pkg-2.1.0.tgz" |}.

(** A local store that knows where the tarball of "pkg" comes from. *)
Definition tarball_local : Local.t :=
  {| Local.get_package := λ _,
       Local.Ok (mkDoc (_rev cached_doc) (name cached_doc) (versions cached_doc)
                       (dist_tags cached_doc) (readme cached_doc)
                       (_uplinks cached_doc)
                       (Some {[ "pkg-2.1.0.tgz" := tarball ]})
                       None ∅);
     Local.add_package := λ _ _, None;
     Local.update_versions := λ _ pkginfo, Local.Ok pkginfo |}.

(** ** Search *)

(** The uplink named mirror answers the search, the others time out;
    the local store reports the given names as recent. *)
Definition search_world (local_only : bool) (names : list string)
  : SearchWorld :=
  {| request := λ u,
       if bool_decide (Proxy.upname u = "mirror")
       then {| request_err := None; statusCode := 200;
               body := {[ "pkg" := RemoteEntry "summary of pkg on mirror";
                          "left-pad" := RemoteEntry "summary of left-pad" ]} |}
       else {| request_err := Some (PlainError "ETIMEDOUT"); statusCode := 0;
               body := ∅ |};
     query_local := local_only;
     get_recent_packages := λ _,
       Local.Ok ((λ n, {| item_name := n; item_time := 1000 |}) <$> names);
     settle := reverse |}.

(** * Properties *)

(** ** The merge *)

Section merge_properties.
Context `{Utils}.

Lemma copy_new_versions_lookup (local_versions up_versions : gmap string VersionObject) i :
  copy_new_versions local_versions up_versions !! i =
  match local_versions !! i with
  | Some v => Some v
  | None => up_versions !! i
  end.
Proof.
  revert i. unfold copy_new_versions.
  apply (map_fold_weak_ind
           (λ acc m, ∀ i, acc !! i = match local_versions !! i with
                                     | Some v => Some v
                                     | None => m !! i
                                     end)).
  - intros i. rewrite lookup_empty. by destruct (local_versions !! i).
  - intros k x m acc Hk IH i.
    destruct (acc !! k) as [w|] eqn:Hacc.
    + rewrite IH. destruct (local_versions !! i) eqn:Hl; [done|].
      destruct (decide (k = i)) as [->|Hne].
      * rewrite IH, Hl, Hk in Hacc. done.
      * by rewrite lookup_insert_ne.
    + destruct (decide (k = i)) as [->|Hne].
      * rewrite !lookup_insert_eq. rewrite IH, Hk in Hacc.
        by destruct (local_versions !! i).
      * rewrite !lookup_insert_ne by done. apply IH.
Qed.

Lemma copy_new_versions_subseteq (local_versions up_versions : gmap string VersionObject) :
  dom up_versions ⊆ dom (copy_new_versions local_versions up_versions).
Proof.
  intros i. rewrite !elem_of_dom, copy_new_versions_lookup.
  destruct (local_versions !! i); eauto.
Qed.

Lemma refresh_tag_frame up config i v d : same_frame d (refresh_tag up config i v d).
Proof. unfold refresh_tag, same_frame. cbv zeta. by destruct (_ && _). Qed.

Lemma refresh_tags_frame up config d (tags : gmap string TagVal) :
  same_frame d (map_fold (refresh_tag up config) d tags).
Proof.
  apply (map_fold_weak_ind (λ r _, same_frame d r)).
  - by unfold same_frame.
  - intros i v m r _ IH.
    pose proof (refresh_tag_frame up config i v r) as Hr.
    unfold same_frame in *. destruct_and!. repeat split; congruence.
Qed.

Lemma merge_versions_versions local up config :
  versions (_merge_versions local up config) =
  copy_new_versions (versions local) (versions up).
Proof.
  unfold _merge_versions.
  pose proof (refresh_tags_frame up config
    (set_versions (copy_new_versions (versions local) (versions up)) local)
    (dist_tags up)) as Hf.
  unfold same_frame in Hf. by destruct_and!.
Qed.

Lemma merge_versions_uplinks local up config :
  _uplinks (_merge_versions local up config) = _uplinks local.
Proof.
  unfold _merge_versions.
  pose proof (refresh_tags_frame up config
    (set_versions (copy_new_versions (versions local) (versions up)) local)
    (dist_tags up)) as Hf.
  unfold same_frame in Hf. by destruct_and!.
Qed.

(** The merge inside [try]: it ends like [_merge_versions] when no call
    of [tag_version] throws; in any case the versions are copied and only
    the tags and the readme are touched besides. *)
Lemma try_refresh_tags_foldr up config d (l : list (string * TagVal)) :
  let m := foldr (uncurry (try_refresh_tag up config)) (d, None) l in
  same_frame d m.1
  ∧ (m.2 = None → m.1 = foldr (uncurry (refresh_tag up config)) d l)
  ∧ (∀ e, m.2 = Some e →
       ∃ tags tag v, (tag, v) ∈ l ∧ tag_version_throws tags v tag config = Some e)
  ∧ ((∀ tags tag v, (tag, v) ∈ l → tag_version_throws tags v tag config = None) →
     m.2 = None).
Proof.
  induction l as [|[tag v] l IH]; simpl.
  - split_and!; [by unfold same_frame|done|done|done].
  - destruct IH as (Hframe & Hret & Hthrown & Hnone).
    destruct (foldr _ _ l) as [d' [e|]] eqn:Hfold;
      unfold try_refresh_tag; simpl in *.
    + split_and!; [done|done| |].
      * intros e' [= <-]. destruct (Hthrown e eq_refl) as (tags & tag' & v' & Hin & Ht).
        exists tags, tag', v'. split; [by right|done].
      * intros Hall. exfalso. enough (Some e = None) by done.
        apply Hnone. intros ????. apply Hall. by right.
    + destruct (tag_version_throws (dist_tags d') v tag config) as [e|] eqn:Ht; simpl.
      * split_and!; [|done| |].
        -- unfold same_frame in *. simpl. by destruct_and!.
        -- intros e' [= <-]. exists (dist_tags d'), tag, v. split; [by left|done].
        -- intros Hall. rewrite Hall in Ht by (by left). done.
      * split_and!; [| |done|done].
        -- pose proof (refresh_tag_frame up config tag v d') as Hr.
           unfold same_frame in *. destruct_and!. repeat split; congruence.
        -- intros _. by rewrite Hret.
Qed.

Lemma try_merge_versions_spec local up config :
  let m := try_merge_versions local up config in
  versions m.1 = copy_new_versions (versions local) (versions up)
  ∧ _uplinks m.1 = _uplinks local
  ∧ (m.2 = None → m.1 = _merge_versions local up config)
  ∧ (∀ e, m.2 = Some e → merge_throws config up e)
  ∧ (reconciles config up → m.2 = None).
Proof.
  unfold try_merge_versions, _merge_versions. rewrite !map_fold_foldr.
  destruct (try_refresh_tags_foldr up config
              (set_versions (copy_new_versions (versions local) (versions up)) local)
              (map_to_list (dist_tags up))) as (Hframe & Hret & Hthrown & Hnone).
  simpl. split_and!.
  - unfold same_frame in Hframe. by destruct_and!.
  - unfold same_frame in Hframe. by destruct_and!.
  - done.
  - intros e (tags & tag & v & Hin%elem_of_map_to_list & Ht)%Hthrown.
    by exists tags, tag, v.
  - intros Hrec. apply Hnone. intros tags tag v Hin%elem_of_map_to_list.
    by eapply Hrec.
Qed.

(** C2. Merging a remote document never replaces the object stored under
    a version key of the local document: after the merge every version
    key of the local document still maps to the object it had, whatever
    the remote document holds under that key, and a key the local
    document did not have maps to what the remote document holds. *)
Theorem merge_versions_keeps_local_versions local up config i :
  versions (_merge_versions local up config) !! i =
  match versions local !! i with
  | Some v => Some v
  | None => versions up !! i
  end.
Proof. rewrite merge_versions_versions. apply copy_new_versions_lookup. Qed.




End merge_properties.








Lemma merge_versions_keeps_local_versions_witness :
  let merged := _merge_versions local_doc remote_doc example_config in
  versions remote_doc !! "2.0.0" = Some (Version "remote body of 2.0.0")
  ∧ versions merged !! "2.0.0" = Some (Version "local body of 2.0.0")
  ∧ versions merged !! "2.1.0" = Some (Version "body of 2.1.0").
Proof.
  split; [reflexivity|]. split.
  - exact (merge_versions_keeps_local_versions
             local_doc remote_doc example_config "2.0.0").
  - exact (merge_versions_keeps_local_versions
             local_doc remote_doc example_config "2.1.0").
Defined.

Example merge_versions_scenario :
  let merged := _merge_versions local_doc remote_doc example_config in
  versions merged !! "2.0.0" = Some (Version "local body of 2.0.0")
  ∧ versions merged !! "2.1.0" = Some (Version "body of 2.1.0")
  ∧ dist_tags merged !! "latest" = Some (TagList ["2.0.0"; "2.1.0"])
  ∧ readme merged = Some "remote readme".
Proof. vm_compute. done. Qed.

(** ** One answer of an uplink *)

Section callback_properties.
Context `{Utils}.

Lemma sync_state_eta st :
  {| st_pkginfo := st_pkginfo st; st_exists := st_exists st |} = st.
Proof. by destruct st. Qed.

Lemma status_is_true err code : status_is err code = true ↔ status err = Some code.
Proof. unfold status_is. apply bool_decide_eq_true. Qed.

Lemma status_is_false err code : status_is err code = false ↔ status err ≠ Some code.
Proof. unfold status_is. apply bool_decide_eq_false. Qed.

(** An error other than 304 leaves the state as it is. *)
Lemma on_response_error config name up r st err :
  Proxy.err r = Some err → status err ≠ Some 304%Z →
  on_response config name up r st = Some (st, Some err).
Proof.
  intros He Hs. unfold on_response. rewrite He.
  apply status_is_false in Hs. rewrite Hs. simpl.
  by rewrite sync_state_eta.
Qed.

Lemma on_response_not_modified config name up r st err table rec :
  Proxy.err r = Some err → status err = Some 304%Z →
  _uplinks (st_pkginfo st) = Some table →
  table !! Proxy.upname up = Some rec →
  on_response config name up r st =
  Some ({| st_pkginfo :=
             set_uplinks
               (Some (<[ Proxy.upname up :=
                          {| etag := etag rec;
                             fetched := Some (Proxy.at_time r) |} ]> table))
               (st_pkginfo st);
           st_exists := st_exists st |}, Some err).
Proof.
  intros He Hs Ht Hrec. unfold on_response. rewrite He.
  apply status_is_true in Hs. rewrite Hs.
  unfold touch_fetched. rewrite Ht. simpl. rewrite Hrec. simpl. done.
Qed.

Lemma on_response_no_data config name up r st :
  Proxy.err r = None → Proxy.up_res r = None →
  on_response config name up r st = Some (st, Some (Error "no data")).
Proof.
  intros He Hd. unfold on_response. rewrite He, Hd. simpl.
  by rewrite sync_state_eta.
Qed.

Lemma on_response_invalid config name up r st up_res err :
  Proxy.err r = None → Proxy.up_res r = Some up_res →
  validate_metadata up_res name = Some err →
  on_response config name up r st = Some (st, Some err).
Proof.
  intros He Hd Hv. unfold on_response. rewrite He, Hd. simpl. rewrite Hv.
  by rewrite sync_state_eta.
Qed.

Lemma on_response_valid config name up r st up_res table :
  Proxy.err r = None → Proxy.up_res r = Some up_res →
  validate_metadata up_res name = None →
  _uplinks (st_pkginfo st) = Some table →
  let m := try_merge_versions
             (set_uplinks
                (Some (<[ Proxy.upname up :=
                           {| etag := Proxy.res_etag r;
                              fetched := Some (Proxy.at_time r) |} ]> table))
                (st_pkginfo st))
             up_res config in
  on_response config name up r st =
  Some ({| st_pkginfo := m.1;
           st_exists := match m.2 with
                        | Some _ => st_exists st
                        | None => true
                        end |}, m.2).
Proof.
  intros He Hd Hv Ht m. unfold on_response. rewrite He, Hd. simpl. rewrite Hv.
  unfold store_record. simpl. rewrite Ht. simpl. fold m. by destruct m.2.
Qed.

(** C5. What one answered request does to the state of the pass.
    On a not-modified answer (304) the record of the uplink keeps its
    etag and gets the current time as [fetched], and nothing else of the
    document changes.  On any other error of the uplink, on a missing
    document (the error "no data", of status 500) and on a validation
    failure the state is left as it is.  In all these cases the error is
    stored at the position of the uplink in the list of errors.  On a
    valid document the record of the uplink gets the new etag and the
    current time, whether the merge that follows returns or throws: when
    it returns, the document is the merged one, the package exists and no
    error is stored; when it throws, the error caught is stored and
    [exists] is left as it was. *)
Theorem uplink_answer_updates_record config name rq st errors :
  let r := Proxy.get_package (up rq) name (_options rq) in
  let upname := Proxy.upname (up rq) in
  (∀ err table rec,
     Proxy.err r = Some err → status err = Some 304%Z →
     _uplinks (st_pkginfo st) = Some table → table !! upname = Some rec →
     complete config name rq (st, errors) =
     Some ({| st_pkginfo :=
                set_uplinks
                  (Some (<[ upname := {| etag := etag rec;
                                         fetched := Some (Proxy.at_time r) |} ]>
                           table))
                  (st_pkginfo st);
              st_exists := st_exists st |},
           <[ index rq := Some err ]> errors))
  ∧ (∀ err,
       Proxy.err r = Some err → status err ≠ Some 304%Z →
       complete config name rq (st, errors)
       = Some (st, <[ index rq := Some err ]> errors))
  ∧ (∀ err,
       Proxy.err r = None → response_error name r = Some err →
       complete config name rq (st, errors)
       = Some (st, <[ index rq := Some err ]> errors))
  ∧ (Proxy.err r = None → Proxy.up_res r = None →
     complete config name rq (st, errors)
     = Some (st, <[ index rq := Some (ErrorWith 500 "no data") ]> errors))
  ∧ (∀ table up_res,
       response_error name r = None → Proxy.up_res r = Some up_res →
       _uplinks (st_pkginfo st) = Some table →
       let stored :=
         set_uplinks
           (Some (<[ upname := {| etag := Proxy.res_etag r;
                                  fetched := Some (Proxy.at_time r) |} ]> table))
           (st_pkginfo st) in
       let m := try_merge_versions stored up_res config in
       complete config name rq (st, errors)
       = Some ({| st_pkginfo := m.1;
                  st_exists := match m.2 with
                               | Some _ => st_exists st
                               | None => true
                               end |},
               <[ index rq := m.2 ]> errors)
       ∧ _uplinks m.1 =
         Some (<[ upname := {| etag := Proxy.res_etag r;
                               fetched := Some (Proxy.at_time r) |} ]> table)
       ∧ (m.2 = None → m.1 = _merge_versions stored up_res config)
       ∧ (∀ err, m.2 = Some err → merge_throws config up_res err)).
Proof.
  intros r upname. unfold complete. simpl. fold r. split_and!.
  - intros err table rec He Hs Ht Hrec.
    by rewrite (on_response_not_modified _ _ _ _ _ err table rec).
  - intros err He Hs. by rewrite (on_response_error _ _ _ _ _ err).
  - intros err He Hr. unfold response_error in Hr. rewrite He in Hr.
    destruct (Proxy.up_res r) as [up_res|] eqn:Hd.
    + by rewrite (on_response_invalid _ _ _ _ _ up_res err).
    + injection Hr as <-. by rewrite on_response_no_data.
  - intros He Hd. by rewrite on_response_no_data.
  - intros table up_res Hr Hd Ht. unfold response_error in Hr.
    destruct (Proxy.err r) eqn:He; [done|]. rewrite Hd in Hr.
    rewrite (on_response_valid _ _ _ _ _ up_res table) by done. simpl.
    fold upname.
    set (stored := set_uplinks _ (st_pkginfo st)).
    destruct (try_merge_versions_spec stored up_res config)
      as (_ & Hup & Hret & Hthrown & _).
    done.
Qed.

End callback_properties.

Lemma uplink_answer_updates_record_witness :
  let errors := [None; None] in
  let table : gmap string UplinkRecord :=
    {[ "npmjs" := {| etag := Some "etag-1"; fetched := Some 900%Z |};
       "mirror" := {| etag := Some "m-1"; fetched := Some 100%Z |} ]} in
  (* mirror answers 304: only [fetched] of its record changes *)
  complete example_config "pkg"
    {| index := 1; up := mirror; _options := {| o_etag := Some "m-1" |} |}
    (cached_state, errors)
  = Some ({| st_pkginfo :=
               set_uplinks
                 (Some (<[ "mirror" := {| etag := Some "m-1";
                                          fetched := Some 3000%Z |} ]> table))
                 cached_doc;
             st_exists := true |},
          [None; Some (ErrorWith 304 "not modified")])
  (* mirror is down: nothing changes but the list of errors *)
  ∧ complete example_config "pkg"
      {| index := 1; up := mirror; _options := no_options |}
      (cached_state, errors)
    = Some (cached_state, [None; Some (PlainError "ETIMEDOUT")])
  (* npmjs answers a document of another name: validation fails *)
  ∧ complete example_config "other"
      {| index := 0; up := renamed; _options := no_options |}
      (cached_state, errors)
    = Some (cached_state,
            [Some (PlainError "package.json validating error"); None])
  (* silent hands over neither an error nor a document: status 500 *)
  ∧ complete example_config "pkg"
      {| index := 0; up := silent; _options := no_options |}
      (cached_state, errors)
    = Some (cached_state, [Some (ErrorWith 500 "no data"); None])
  (* npmjs answers a valid document: etag and [fetched] are replaced *)
  ∧ (∃ pkginfo',
      complete example_config "pkg"
        {| index := 0; up := npmjs; _options := {| o_etag := Some "etag-1" |} |}
        (cached_state, errors)
      = Some ({| st_pkginfo := pkginfo'; st_exists := true |}, [None; None])
      ∧ _uplinks pkginfo' =
        Some (<[ "npmjs" := {| etag := Some "etag-2"; fetched := Some 2000%Z |} ]>
                table))
  (* legacy answers a document whose merge throws: the record is
     written all the same, the error is stored, [exists] stays false *)
  ∧ ∃ pkginfo',
      complete example_config "pkg"
        {| index := 0; up := legacy; _options := no_options |}
        ({| st_pkginfo := skeleton "pkg"; st_exists := false |}, errors)
      = Some ({| st_pkginfo := pkginfo'; st_exists := false |},
              [Some (PlainError "Invalid Version"); None])
      ∧ _uplinks pkginfo' =
        Some {[ "legacy" := {| etag := Some "etag-9"; fetched := Some 2000%Z |} ]}.
Proof.
  intros errors table. split; [|split; [|split; [|split; [|split]]]].
  - destruct (uplink_answer_updates_record example_config "pkg"
                {| index := 1; up := mirror;
                   _options := {| o_etag := Some "m-1" |} |}
                cached_state errors) as (H304 & _).
    exact (H304 (ErrorWith 304 "not modified") table
                {| etag := Some "m-1"; fetched := Some 100%Z |}
                eq_refl eq_refl eq_refl eq_refl).
  - destruct (uplink_answer_updates_record example_config "pkg"
                {| index := 1; up := mirror; _options := no_options |}
                cached_state errors) as (_ & Hdown & _).
    apply (Hdown (PlainError "ETIMEDOUT")); [reflexivity | discriminate].
  - destruct (uplink_answer_updates_record example_config "other"
                {| index := 0; up := renamed; _options := no_options |}
                cached_state errors) as (_ & _ & Hinvalid & _).
    apply (Hinvalid (PlainError "package.json validating error")); reflexivity.
  - destruct (uplink_answer_updates_record example_config "pkg"
                {| index := 0; up := silent; _options := no_options |}
                cached_state errors) as (_ & _ & _ & Hnodata & _).
    exact (Hnodata eq_refl eq_refl).
  - destruct (uplink_answer_updates_record example_config "pkg"
                {| index := 0; up := npmjs;
                   _options := {| o_etag := Some "etag-1" |} |}
                cached_state errors) as (_ & _ & _ & _ & Hvalid).
    destruct (Hvalid table remote_doc eq_refl eq_refl eq_refl)
      as (Hc & Hup & _).
    eexists. split; [exact Hc | exact Hup].
  - destruct (uplink_answer_updates_record example_config "pkg"
                {| index := 0; up := legacy; _options := no_options |}
                {| st_pkginfo := skeleton "pkg"; st_exists := false |} errors)
      as (_ & _ & _ & _ & Hvalid).
    destruct (Hvalid ∅ listed_doc eq_refl eq_refl eq_refl) as (Hc & Hup & _).
    eexists. split; [exact Hc | exact Hup].
Defined.

(** ** A synchronisation pass *)

Section pass_properties.
Context `{Utils}.

Lemma response_error_None name r :
  response_error name r = None ↔
  Proxy.err r = None
  ∧ ∃ up_res, Proxy.up_res r = Some up_res ∧ validate_metadata up_res name = None.
Proof.
  unfold response_error.
  destruct (Proxy.err r), (Proxy.up_res r) as [d|]; naive_solver.
Qed.

(** The result of a callback, and what it does to [exists]: the package
    exists once a valid document was merged without an error. *)
Lemma on_response_slot config name up r st st' slot :
  on_response config name up r st = Some (st', slot) →
  slot_of config name r slot
  ∧ st_exists st' =
    st_exists st || (bool_decide (response_error name r = None)
                     && bool_decide (slot = None)).
Proof.
  unfold on_response, slot_of, response_error. intros Hon.
  destruct (Proxy.err r) as [err|]; simpl in Hon.
  - assert (st_exists st' = st_exists st ∧ slot = Some err) as [-> ->].
    { destruct (status_is err 304); simpl in Hon;
        [destruct (touch_fetched _ _ _); simpl in Hon|]; by simplify_eq. }
    split; [done|]. simpl. by rewrite orb_false_r.
  - destruct (Proxy.up_res r) as [d|].
    2:{ simplify_eq. split; [done|]. simpl. by rewrite orb_false_r. }
    destruct (validate_metadata d name).
    { simplify_eq. split; [done|]. simpl. by rewrite orb_false_r. }
    destruct (store_record _ _ _) as [d'|]; simpl in Hon; [|done].
    destruct (try_merge_versions_spec d' d config) as (_ & _ & _ & Hthrown & _).
    destruct (try_merge_versions d' d config) as [d2 [e|]]; simpl in *;
      simplify_eq; simpl.
    + split; [|by rewrite orb_false_r].
      right. exists d, e. split_and!; [done| |done]. by apply Hthrown.
    + split; [by left|]. by rewrite orb_true_r.
Qed.

(** Where [tag_version] does not throw, the result of a callback is the
    error of the answer. *)
Lemma slot_of_reconciled config name r slot :
  (∀ d, Proxy.up_res r = Some d → reconciles config d) →
  slot_of config name r slot → slot = response_error name r.
Proof.
  unfold slot_of. intros Hrec.
  destruct (response_error name r); [done|].
  intros [->|(d & e & Hd & (tags & tag & v & Hl & Ht) & ->)]; [done|].
  rewrite (Hrec d Hd tags tag v Hl) in Ht. done.
Qed.

Lemma touch_fetched_Some upname at_time d d' :
  touch_fetched upname at_time d = Some d' →
  ∃ table rec, _uplinks d = Some table ∧ table !! upname = Some rec
    ∧ d' = set_uplinks
             (Some (<[ upname := {| etag := etag rec; fetched := Some at_time |} ]>
                      table)) d.
Proof.
  unfold touch_fetched. intros Ht.
  destruct (_uplinks d) as [table|]; simpl in Ht; [|done].
  destruct (table !! upname) as [rec|] eqn:Hrec; simpl in Ht; [|done].
  simplify_eq. by exists table, rec.
Qed.

Lemma store_record_Some upname rec d d' :
  store_record upname rec d = Some d' →
  ∃ table, _uplinks d = Some table
    ∧ d' = set_uplinks (Some (<[ upname := rec ]> table)) d.
Proof.
  unfold store_record. intros Ht.
  destruct (_uplinks d) as [table|]; simpl in Ht; [|done].
  simplify_eq. by exists table.
Qed.

(** A callback writes the record of its own uplink only, and never
    removes a record or a version. *)
Lemma on_response_frame config name u r st st' slot table :
  on_response config name u r st = Some (st', slot) →
  _uplinks (st_pkginfo st) = Some table →
  ∃ table', _uplinks (st_pkginfo st') = Some table'
    ∧ (∀ k, k ≠ Proxy.upname u → table' !! k = table !! k)
    ∧ (∀ k, is_Some (table !! k) → is_Some (table' !! k))
    ∧ dom (versions (st_pkginfo st)) ⊆ dom (versions (st_pkginfo st')).
Proof.
  unfold on_response. intros Hon Ht.
  assert (Hsame : ∃ table', _uplinks (st_pkginfo st) = Some table'
    ∧ (∀ k, k ≠ Proxy.upname u → table' !! k = table !! k)
    ∧ (∀ k, is_Some (table !! k) → is_Some (table' !! k))
    ∧ dom (versions (st_pkginfo st)) ⊆ dom (versions (st_pkginfo st))).
  { exists table. done. }
  assert (Htouch : ∀ d', touch_fetched (Proxy.upname u) (Proxy.at_time r)
                           (st_pkginfo st) = Some d' →
    ∃ table', _uplinks d' = Some table'
    ∧ (∀ k, k ≠ Proxy.upname u → table' !! k = table !! k)
    ∧ (∀ k, is_Some (table !! k) → is_Some (table' !! k))
    ∧ dom (versions (st_pkginfo st)) ⊆ dom (versions d')).
  { intros d' (t & rec & Ht' & Hrec & ->)%touch_fetched_Some.
    rewrite Ht in Ht'. simplify_eq. eexists. split; [done|]. split_and!.
    - intros k Hk. by rewrite lookup_insert_ne.
    - intros k Hk. destruct (decide (Proxy.upname u = k)) as [->|];
        [rewrite lookup_insert_eq; eauto | by rewrite lookup_insert_ne].
    - done. }
  destruct (Proxy.err r) as [err|]; simpl in Hon.
  - destruct (status_is err 304); simpl in Hon.
    + destruct (touch_fetched _ _ _) as [d'|] eqn:Hd'; simpl in Hon; [|done].
      simplify_eq. simpl. by apply Htouch.
    + by simplify_eq.
  - destruct (Proxy.up_res r) as [d|]; [|by simplify_eq].
    destruct (validate_metadata d name); [by simplify_eq|].
    destruct (store_record _ _ _) as [d'|] eqn:Hd'; simpl in Hon; [|done].
    apply store_record_Some in Hd' as (t & Ht' & ->). simpl in Ht'.
    rewrite Ht in Ht'. simplify_eq.
    match type of Hon with
    | context [try_merge_versions ?l ?u ?c] =>
        destruct (try_merge_versions_spec l u c) as (Hvs & Hup & _);
        assert (Hst : st_pkginfo st' = (try_merge_versions l u c).1)
          by (destruct (try_merge_versions l u c) as [? [?|]];
              simpl in Hon; by simplify_eq)
    end.
    rewrite Hst, Hup, Hvs. simpl.
    eexists. split; [done|]. split_and!.
    + intros k Hk. by rewrite lookup_insert_ne.
    + intros k Hk. destruct (decide (Proxy.upname u = k)) as [->|];
        [rewrite lookup_insert_eq; eauto | by rewrite lookup_insert_ne].
    + intros i. rewrite !elem_of_dom, copy_new_versions_lookup.
      by intros [v ->].
Qed.

(** A valid answer brings every version of its document. *)
Lemma on_response_versions config name u r st st' slot up_res :
  on_response config name u r st = Some (st', slot) →
  Proxy.up_res r = Some up_res → response_error name r = None →
  dom (versions up_res) ⊆ dom (versions (st_pkginfo st')).
Proof.
  intros Hon Hd (He & d & Hd' & Hv)%response_error_None.
  rewrite Hd in Hd'. simplify_eq.
  unfold on_response in Hon. rewrite He, Hd, Hv in Hon. simpl in Hon.
  destruct (store_record _ _ _) as [d'|]; simpl in Hon; [|done].
  destruct (try_merge_versions_spec d' d config) as (Hvs & _).
  assert (Hst : st_pkginfo st' = (try_merge_versions d' d config).1)
    by (destruct (try_merge_versions d' d config) as [? [?|]];
        simpl in Hon; by simplify_eq).
  rewrite Hst, Hvs. apply copy_new_versions_subseteq.
Qed.

(** A callback throws only on a 304 for an uplink without a record, or
    on a document without a table of records. *)
Lemma on_response_total config name u r st table :
  _uplinks (st_pkginfo st) = Some table →
  (∀ err, Proxy.err r = Some err → status err = Some 304%Z →
          is_Some (table !! Proxy.upname u)) →
  is_Some (on_response config name u r st).
Proof.
  intros Ht H304. unfold on_response.
  destruct (Proxy.err r) as [err|] eqn:He; simpl.
  - destruct (status_is err 304) eqn:Hs; simpl; [|done].
    apply status_is_true in Hs. destruct (H304 err eq_refl Hs) as [rec Hrec].
    unfold touch_fetched. rewrite Ht. simpl. rewrite Hrec. simpl. done.
  - destruct (Proxy.up_res r) as [d|]; [|done].
    destruct (validate_metadata d name); [done|].
    unfold store_record. rewrite Ht. simpl.
    by destruct (try_merge_versions _ _ _) as [? [?|]].
Qed.

(** The documents and the records after the callbacks of a list of
    requests. *)
Lemma run_callbacks_frame config name rqs st errs st' errs' table :
  run_callbacks config name rqs (st, errs) = Some (st', errs') →
  _uplinks (st_pkginfo st) = Some table →
  dom (versions (st_pkginfo st)) ⊆ dom (versions (st_pkginfo st'))
  ∧ (∀ rq up_res, rq ∈ rqs →
       Proxy.up_res (request_answer name rq) = Some up_res →
       request_valid name rq = true →
       dom (versions up_res) ⊆ dom (versions (st_pkginfo st')))
  ∧ ∃ table', _uplinks (st_pkginfo st') = Some table'
      ∧ (∀ k, (∀ rq, rq ∈ rqs → Proxy.upname (up rq) ≠ k) →
              table' !! k = table !! k)
      ∧ (∀ k, is_Some (table !! k) → is_Some (table' !! k)).
Proof.
  revert st errs table.
  induction rqs as [|rq rqs IH]; intros st errs table Hrun Ht; simpl in Hrun.
  - simplify_eq. simpl. split_and!; try done.
    + intros ?? Hin. set_solver.
    + exists table. done.
  - unfold complete in Hrun. simpl in Hrun.
    destruct (on_response config name (up rq) _ st) as [[st1 slot]|] eqn:Hon;
      simpl in Hrun; [|done].
    fold (request_answer name rq) in Hon.
    destruct (on_response_frame _ _ _ _ _ _ _ _ Hon Ht)
      as (table1 & Ht1 & Hother1 & Hkeep1 & Hdom1).
    destruct (IH _ _ _ Hrun Ht1)
      as (Hdom' & Hvalid' & table' & Ht' & Hother' & Hkeep').
    split_and!.
    + set_solver.
    + intros rq' d Hin Hd Hv. apply elem_of_cons in Hin as [->|Hin].
      * unfold request_valid in Hv. apply bool_decide_eq_true in Hv.
        pose proof (on_response_versions _ _ _ _ _ _ _ _ Hon Hd Hv).
        set_solver.
      * by eapply Hvalid'.
    + exists table'. split_and!; [done| |by auto].
      intros k Hk. rewrite Hother' by (intros; apply Hk; set_solver).
      apply Hother1. intros ->. eapply Hk; [|done]. set_solver.
Qed.

(** The results of the callbacks: [async.map] keeps the result of each
    request at the position of its uplink, and the package exists when a
    valid document was merged without an error. *)
Lemma run_callbacks_slots config name rqs st errs st' errs' :
  run_callbacks config name rqs (st, errs) = Some (st', errs') →
  NoDup (index <$> rqs) →
  (∀ rq, rq ∈ rqs → (index rq < length errs)%nat) →
  length errs' = length errs
  ∧ (∀ i, (∀ rq, rq ∈ rqs → index rq ≠ i) → errs' !! i = errs !! i)
  ∧ (∀ rq, rq ∈ rqs →
       ∃ slot, errs' !! index rq = Some slot
               ∧ slot_of config name (request_answer name rq) slot)
  ∧ (st_exists st' = true ↔
     st_exists st = true
     ∨ ∃ rq, rq ∈ rqs ∧ request_valid name rq = true
             ∧ errs' !! index rq = Some None).
Proof.
  revert st errs.
  induction rqs as [|rq rqs IH]; intros st errs Hrun Hnd Hlt; simpl in Hrun.
  - simplify_eq. split_and!; [done|done| |].
    + intros rq Hin. by apply elem_of_nil in Hin.
    + split; [by left|]. intros [?|(rq & Hin & _)]; [done|].
      by apply elem_of_nil in Hin.
  - unfold complete in Hrun. simpl in Hrun.
    destruct (on_response config name (up rq) _ st) as [[st1 slot]|] eqn:Hon;
      simpl in Hrun; [|done].
    fold (request_answer name rq) in Hon.
    destruct (on_response_slot _ _ _ _ _ _ _ Hon) as [Hslot Hex].
    rewrite fmap_cons in Hnd. apply NoDup_cons in Hnd as [Hnotin Hnd].
    destruct (IH _ _ Hrun Hnd) as (Hlen & Hother & Hslots & Hexists).
    { intros rq' Hin. rewrite length_insert. apply Hlt. by right. }
    assert (Hhead : errs' !! index rq = Some slot).
    { rewrite Hother.
      - apply list_lookup_insert_eq. apply Hlt. by left.
      - intros rq' Hin Heq. apply Hnotin, list_elem_of_fmap. by exists rq'. }
    split_and!.
    + by rewrite Hlen, length_insert.
    + intros i Hi. rewrite Hother by (intros; apply Hi; by right).
      apply list_lookup_insert_ne. apply Hi. by left.
    + intros rq' [->|Hin]%elem_of_cons; [eauto|by apply Hslots].
    + rewrite Hexists, Hex. split.
      * intros [Hst|(rq' & Hin & Hv & Hl)].
        -- apply orb_true_iff in Hst as [?|[Hv Hs]%andb_true_iff]; [by left|].
           right. exists rq. split_and!; [by left|done|].
           apply bool_decide_eq_true in Hs. by rewrite Hhead, Hs.
        -- right. exists rq'. split_and!; [by right|done..].
      * intros [Hst|(rq' & [->|Hin]%elem_of_cons & Hv & Hl)].
        -- left. by rewrite Hst.
        -- left. rewrite Hhead in Hl. injection Hl as ->.
           unfold request_valid in Hv. rewrite Hv. simpl.
           by rewrite orb_true_r.
        -- right. eauto.
Qed.

(** The callbacks run to the end when no uplink answers 304 without
    having a record. *)
Lemma run_callbacks_total config name rqs st errs table :
  _uplinks (st_pkginfo st) = Some table →
  (∀ rq err, rq ∈ rqs → Proxy.err (request_answer name rq) = Some err →
             status err = Some 304%Z →
             is_Some (table !! Proxy.upname (up rq))) →
  is_Some (run_callbacks config name rqs (st, errs)).
Proof.
  revert st errs table.
  induction rqs as [|rq rqs IH]; intros st errs table Ht H304; simpl; [done|].
  unfold complete. simpl.
  destruct (on_response_total config name (up rq) (request_answer name rq)
              st table Ht) as [[st1 slot] Hon].
  { intros err. apply H304. set_solver. }
  unfold request_answer in Hon. rewrite Hon. simpl.
  destruct (on_response_frame _ _ _ _ _ _ _ _ Hon Ht)
    as (table1 & Ht1 & _ & Hkeep1 & _).
  apply (IH _ _ table1 Ht1).
  intros rq' err Hin He Hs. apply Hkeep1. eapply H304; [|done..]. set_solver.
Qed.

(** The requests in flight are the uplinks of the plan that were not
    skipped, each at its position. *)
Lemma elem_of_requests plan rq :
  rq ∈ requests plan ↔ plan !! index rq = Some (up rq, Call (_options rq)).
Proof.
  unfold requests. rewrite list_elem_of_omap. split.
  - intros (x & Hx & Hid). simpl in Hid. subst x.
    apply elem_of_lookup_imap in Hx as (i & [u d] & Hf & Hp). simpl in Hf.
    destruct d as [|o]; [done|]. by simplify_eq.
  - intros Hp. exists (Some rq). split; [|done].
    apply elem_of_lookup_imap. eexists _, _. split; [|exact Hp].
    simpl. by destruct rq.
Qed.

(** No two requests in flight have the same position. *)
Lemma requests_offset_sublist (plan : list (Proxy.t * Dispatch)) k :
  index <$> omap id
    (imap (λ i p, match p.2 with
                  | Call o => Some {| index := k + i; up := p.1; _options := o |}
                  | Skip => None
                  end) plan)
  `sublist_of` seq k (length plan).
Proof.
  revert k. induction plan as [|[u d] plan IH]; intros k; simpl; [done|].
  assert (Htail : index <$> omap id
            (imap ((λ i p, match p.2 with
                           | Call o => Some {| index := k + i; up := p.1;
                                               _options := o |}
                           | Skip => None
                           end) ∘ S) plan)
          `sublist_of` seq (S k) (length plan)).
  { erewrite imap_ext; [apply (IH (S k))|].
    intros i [u' d'] _. simpl. destruct d'; [done|]. do 2 f_equal. lia. }
  destruct d as [|o]; simpl.
  - by apply sublist_cons.
  - rewrite Nat.add_0_r. by apply sublist_skip.
Qed.

Lemma requests_index_NoDup plan : NoDup (index <$> requests plan).
Proof.
  eapply sublist_NoDup; [apply NoDup_seq|].
  apply (requests_offset_sublist plan 0).
Qed.

(** What the iterator decides for every permitted uplink. *)
Lemma plan_lookup (now : Z) pkginfo options ups plan :
  mapM (λ u, pair u <$> dispatch now pkginfo options u) ups = Some plan →
  ∀ i u d, plan !! i = Some (u, d) ↔
           ups !! i = Some u ∧ dispatch now pkginfo options u = Some d.
Proof.
  intros Hplan%mapM_Some i u d. split.
  - intros Hp.
    destruct (Forall2_lookup_r _ _ _ _ _ Hplan Hp) as (u' & Hu & Hd).
    destruct (dispatch now pkginfo options u') as [d'|] eqn:Hd';
      simpl in Hd; [|done].
    by simplify_eq.
  - intros [Hu Hd].
    destruct (Forall2_lookup_l _ _ _ _ _ Hplan Hu) as (p & Hp & Hd').
    rewrite Hd in Hd'. simpl in Hd'. by simplify_eq.
Qed.

Lemma dispatch_skeleton (now : Z) name options u :
  dispatch now (skeleton name) options u = Some (Call options).
Proof. unfold dispatch. simpl. by rewrite lookup_empty. Qed.

Lemma unseeded_plan (now : Z) name options ups :
  mapM (λ u, pair u <$> dispatch now (skeleton name) options u) ups
  = Some ((λ u, (u, Call options)) <$> ups).
Proof.
  apply mapM_Some, Forall2_fmap_r, Forall_Forall2_diag, Forall_forall.
  intros u _. by rewrite dispatch_skeleton.
Qed.

Lemma unseeded_requests options (ups : list Proxy.t) rq :
  rq ∈ requests ((λ u, (u, Call options)) <$> ups) ↔
  ups !! index rq = Some (up rq) ∧ _options rq = options.
Proof.
  rewrite elem_of_requests, list_lookup_fmap.
  destruct (ups !! index rq) as [u|]; simpl; naive_solver.
Qed.

(** The list of errors and [exists] after the callbacks of a pass. *)
Lemma sync_slots self loop name seed options plan st errs :
  completes_each_once loop →
  let ups := permitted self name in
  let pkginfo := default (skeleton name) seed in
  mapM (λ u, pair u <$> dispatch (now loop) pkginfo options u) ups = Some plan →
  run_callbacks (config self) name (completion loop (requests plan))
    ({| st_pkginfo := pkginfo; st_exists := bool_decide (is_Some seed) |},
     replicate (length ups) None) = Some (st, errs) →
  length errs = length ups
  ∧ (∀ i u, ups !! i = Some u →
       match dispatch (now loop) pkginfo options u with
       | Some (Call o) =>
           ∃ slot, errs !! i = Some slot
                   ∧ slot_of (config self) name (Proxy.get_package u name o) slot
       | _ => errs !! i = Some None
       end)
  ∧ (st_exists st = true ↔
     is_Some seed
     ∨ ∃ i u o, ups !! i = Some u
                ∧ dispatch (now loop) pkginfo options u = Some (Call o)
                ∧ response_error name (Proxy.get_package u name o) = None
                ∧ errs !! i = Some None).
Proof.
  intros Hloop ups pkginfo Hplan Hrun.
  pose proof (plan_lookup _ _ _ _ _ Hplan) as Hlookup.
  pose proof (Hloop (requests plan)) as Hperm.
  assert (Hin : ∀ rq, rq ∈ completion loop (requests plan) ↔
                      ups !! index rq = Some (up rq)
                      ∧ dispatch (now loop) pkginfo options (up rq)
                        = Some (Call (_options rq))).
  { intros rq. by rewrite Hperm, elem_of_requests, Hlookup. }
  destruct (run_callbacks_slots _ _ _ _ _ _ _ Hrun)
    as (Hlen & Hother & Hslots & Hexists).
  { rewrite Hperm. apply requests_index_NoDup. }
  { intros rq [Hu _]%Hin. rewrite length_replicate.
    by eapply lookup_lt_Some. }
  rewrite length_replicate in Hlen. split_and!.
  - done.
  - intros i u Hu.
    assert (Hnone : (∀ rq, rq ∈ completion loop (requests plan) → index rq ≠ i) →
                    errs !! i = Some None).
    { intros Hno. rewrite Hother by done.
      apply lookup_replicate_2. by eapply lookup_lt_Some. }
    destruct (dispatch (now loop) pkginfo options u) as [[|o]|] eqn:Hd.
    + apply Hnone. intros rq Hrq Hidx. apply Hin in Hrq as [Hu' Hd'].
      rewrite Hidx, Hu in Hu'. injection Hu' as ->. rewrite Hd in Hd'. done.
    + destruct (Hslots {| index := i; up := u; _options := o |})
        as (slot & Hl & Hs); [by apply Hin|].
      exists slot. done.
    + apply Hnone. intros rq Hrq Hidx. apply Hin in Hrq as [Hu' Hd'].
      rewrite Hidx, Hu in Hu'. injection Hu' as ->. rewrite Hd in Hd'. done.
  - rewrite Hexists. simpl. rewrite bool_decide_eq_true. split.
    + intros [?|(rq & [Hu Hd]%Hin & Hv & Hl)]; [by left|].
      right. exists (index rq), (up rq), (_options rq).
      unfold request_valid, request_answer in Hv.
      apply bool_decide_eq_true in Hv. done.
    + intros [?|(i & u & o & Hu & Hd & Hv & Hl)]; [by left|].
      right. exists {| index := i; up := u; _options := o |}.
      split_and!; [by apply Hin| |done].
      unfold request_valid, request_answer. simpl. by apply bool_decide_eq_true.
Qed.

(** The callbacks of a pass that starts without a local document. *)
Lemma unseeded_callbacks self loop name options st errs :
  completes_each_once loop →
  let ups := permitted self name in
  let answer u := Proxy.get_package u name options in
  run_callbacks (config self) name
    (completion loop (requests ((λ u, (u, Call options)) <$> ups)))
    ({| st_pkginfo := skeleton name; st_exists := false |},
     replicate (length ups) None) = Some (st, errs) →
  Forall2 (λ u slot, slot_of (config self) name (answer u) slot) ups errs
  ∧ (st_exists st = true ↔
     ∃ i u, ups !! i = Some u ∧ response_error name (answer u) = None
            ∧ errs !! i = Some None)
  ∧ (∀ u up_res, u ∈ ups → Proxy.up_res (answer u) = Some up_res →
       response_error name (answer u) = None →
       dom (versions up_res) ⊆ dom (versions (st_pkginfo st))).
Proof.
  intros Hloop ups answer Hrun.
  set (rqs := requests ((λ u, (u, Call options)) <$> ups)) in *.
  pose proof (Hloop rqs) as Hperm.
  destruct (sync_slots self loop name None options _ st errs Hloop
              (unseeded_plan (now loop) name options ups) Hrun)
    as (Hlen & Hslots & Hexists).
  fold ups in Hlen, Hslots, Hexists. simpl in Hslots, Hexists.
  split_and!.
  - apply Forall2_same_length_lookup. split; [done|].
    intros i u slot Hu Hl. specialize (Hslots i u Hu).
    rewrite dispatch_skeleton in Hslots.
    destruct Hslots as (slot' & Hl' & Hs). rewrite Hl in Hl'. by simplify_eq.
  - rewrite Hexists. split.
    + intros [[? [=]]|(i & u & o & Hu & Hd & Hv & Hl)].
      rewrite dispatch_skeleton in Hd. simplify_eq. by exists i, u.
    + intros (i & u & Hu & Hv & Hl). right. exists i, u, options.
      by rewrite dispatch_skeleton.
  - intros u d (i & Hu)%list_elem_of_lookup Hd Hv.
    destruct (run_callbacks_frame _ _ _ _ _ _ _ ∅ Hrun eq_refl)
      as (_ & Hvers & _).
    apply (Hvers {| index := i; up := u; _options := options |} d).
    + rewrite Hperm. by apply unseeded_requests.
    + done.
    + unfold request_valid, request_answer. simpl. by apply bool_decide_eq_true.
Qed.

(** A pass calls the uplinks and [update_versions], nothing else. *)
Lemma sync_effects self loop name seed options e :
  e ∈ (_sync_package_with_uplinks self loop name seed options).1 →
  sync_effect name e.
Proof.
  unfold _sync_package_with_uplinks.
  destruct (mapM _ _) as [plan|]; [|set_solver].
  assert (Hcalls : ∀ rqs : list Request,
            e ∈ (λ rq, UplinkGetPackage (Proxy.upname (up rq)) name (_options rq))
                  <$> rqs → sync_effect name e).
  { intros rqs (rq & -> & _)%list_elem_of_fmap. left. eauto. }
  destruct (run_callbacks _ _ _ _) as [[st errs]|]; [|by apply Hcalls].
  destruct (st_exists st); simpl; [|by apply Hcalls].
  rewrite elem_of_app, list_elem_of_singleton. intros [?| ->]; [by eapply Hcalls|].
  right. eauto.
Qed.

(** A pass without a local document. *)
Lemma sync_unseeded self loop name options :
  completes_each_once loop →
  let ups := permitted self name in
  let answer u := Proxy.get_package u name options in
  let r := _sync_package_with_uplinks self loop name None options in
  (r.2 = SyncThrown →
     ∃ u err, u ∈ ups ∧ Proxy.err (answer u) = Some err
              ∧ status err = Some 304%Z)
  ∧ (r.2 ≠ SyncThrown →
     ∃ st errs,
       Forall2 (λ u slot, slot_of (config self) name (answer u) slot) ups errs
       ∧ (st_exists st = true ↔
          ∃ i u, ups !! i = Some u ∧ response_error name (answer u) = None
                 ∧ errs !! i = Some None)
       ∧ (∀ u up_res, u ∈ ups → Proxy.up_res (answer u) = Some up_res →
            response_error name (answer u) = None →
            dom (versions up_res) ⊆ dom (versions (st_pkginfo st)))
       ∧ r.2 = if st_exists st
               then match Local.update_versions (local self) name
                            (st_pkginfo st) with
                    | Local.Err err => SyncCallback (Some err) None None
                    | Local.Ok pkginfo =>
                        SyncCallback None (Some pkginfo) (Some errs)
                    end
               else SyncCallback
                      (Some (ErrorWith 404 "no such package available"))
                      None (Some errs)).
Proof.
  intros Hloop ups answer. unfold _sync_package_with_uplinks.
  simpl. fold ups. rewrite unseeded_plan.
  set (rqs := requests ((λ u, (u, Call options)) <$> ups)).
  destruct (run_callbacks _ _ _ _) as [[st errs]|] eqn:Hrun.
  - destruct (unseeded_callbacks _ _ _ _ _ _ Hloop Hrun) as (Hslots & Hex & Hvers).
    fold ups in Hslots, Hex, Hvers. fold answer in Hslots, Hex, Hvers.
    split.
    + destruct (st_exists st); simpl; [|done].
      by destruct (Local.update_versions _ _ _).
    + intros _. exists st, errs. split_and!; [done..|].
      by destruct (st_exists st).
  - simpl. split; [|done]. intros _.
    destruct (decide (Exists (λ u, not_modified (answer u) = true) ups))
      as [(u & Hu & Hnm)%Exists_exists|Hno].
    { unfold not_modified in Hnm.
      destruct (Proxy.err (answer u)) as [err|] eqn:He; [|done].
      apply status_is_true in Hnm. by exists u, err. }
    rewrite Exists_exists in Hno.
    destruct (run_callbacks_total (config self) name (completion loop rqs)
                {| st_pkginfo := skeleton name; st_exists := false |}
                (replicate (length ups) None) ∅ eq_refl) as [x Hx].
    + intros rq err Hrq He Hs. destruct Hno.
      rewrite (Hloop rqs) in Hrq. apply unseeded_requests in Hrq as [Hup Ho].
      exists (up rq). split; [by eapply list_elem_of_lookup_2|].
      unfold request_answer in He. rewrite Ho in He.
      unfold not_modified, answer. rewrite He. by apply status_is_true.
    + rewrite Hx in Hrun. done.
Qed.

(** A pass in which no uplink answers a valid document finds nothing,
    and the list of errors is made of the errors of the answers. *)
Lemma slots_all_failed config name (answer : Proxy.t → Proxy.Response)
  (ups : list Proxy.t) errs :
  Forall2 (λ u slot, slot_of config name (answer u) slot) ups errs →
  (∀ u, u ∈ ups → response_error name (answer u) ≠ None) →
  errs = (λ u, response_error name (answer u)) <$> ups.
Proof.
  intros Hslots Hfail. apply list_eq. intros i. rewrite list_lookup_fmap.
  destruct (ups !! i) as [u|] eqn:Hu; simpl.
  - destruct (Forall2_lookup_l _ _ _ _ _ Hslots Hu) as (slot & -> & Hs).
    f_equal. unfold slot_of in Hs.
    destruct (response_error name (answer u)) eqn:He; [done|].
    destruct (Hfail u); [by eapply list_elem_of_lookup_2|done].
  - apply lookup_ge_None. rewrite <- (Forall2_length _ _ _ Hslots).
    by apply lookup_ge_None.
Qed.

End pass_properties.

(** ** Publishing a package *)

Section add_package_properties.
Context `{Utils}.

Lemma check_err_results_down errs :
  Forall is_Some errs →
  (∃ err, Some err ∈ errs ∧ status err ≠ Some 404%Z) →
  check_err_results errs = DoneCallback (Some ServiceUnavailable).
Proof.
  induction 1 as [|o errs [err ->] _ IH]; intros (err' & Hin & Hs).
  - set_solver.
  - simpl. destruct (status_is err 404) eqn:Herr; simpl; [|done].
    apply IH. exists err'. split; [|done].
    apply elem_of_cons in Hin as [?|?]; [|done].
    simplify_eq. by apply status_is_true in Herr.
Qed.

Lemma check_err_results_clean errs :
  check_err_results errs = DoneCallback None →
  Forall (λ o, ∃ err, o = Some err ∧ status err = Some 404%Z) errs.
Proof.
  induction errs as [|[err|] errs IH]; simpl; intros Hc; [done| |done].
  destruct (status_is err 404) eqn:Herr; simpl in Hc; [|done].
  constructor; [|by apply IH].
  exists err. split; [done|]. by apply status_is_true.
Qed.

Lemma check_package_remote_effects self loop name e :
  e ∈ (check_package_remote self loop name).1 → sync_effect name e.
Proof. apply sync_effects. Qed.

(** C1, as the code has it.  [add_package] fails with Conflict when the
    name exists locally.  When the local store answers 404 and the pass
    over the uplinks runs to its end (no uplink answers 304): it fails
    with Conflict when a permitted uplink confirms the package (it
    answers a valid document on whose tags [tag_version] does not throw)
    and the merged document is persisted, and with ServiceUnavailable
    when no uplink answers a valid document and the error of some uplink
    has another status than 404.  The package is created in the local
    store only when the local store answered 404 and every permitted
    uplink left an error of status 404 in the list of errors. *)
Theorem add_package_checks self loop name metadata :
  completes_each_once loop →
  let ups := permitted self name in
  let answer u := Proxy.get_package u name no_options in
  let confirmed :=
    ∃ u up_res, u ∈ ups ∧ response_error name (answer u) = None
                ∧ Proxy.up_res (answer u) = Some up_res
                ∧ reconciles (config self) up_res in
  let r := add_package self loop name metadata in
  (∀ d, Local.get_package (local self) name = Local.Ok d →
        r.2 = DoneCallback (Some Conflict))
  ∧ (∀ e, Local.get_package (local self) name = Local.Err e →
          status e = Some 404%Z →
          (∀ u, u ∈ ups → not_modified (answer u) = false) →
          (confirmed →
           (∀ d, ∃ d', Local.update_versions (local self) name d = Local.Ok d') →
           r.2 = DoneCallback (Some Conflict))
          ∧ ((∀ u, u ∈ ups → response_error name (answer u) ≠ None) →
             (∃ u err, u ∈ ups ∧ response_error name (answer u) = Some err
                       ∧ status err ≠ Some 404%Z) →
             r.2 = DoneCallback (Some ServiceUnavailable)))
  ∧ (LocalAddPackage name metadata ∈ r.1 →
     (∃ e, Local.get_package (local self) name = Local.Err e
           ∧ status e = Some 404%Z)
     ∧ ∀ u, u ∈ ups →
            ∃ err, status err = Some 404%Z
                   ∧ slot_of (config self) name (answer u) (Some err)).
Proof.
  intros Hloop ups answer confirmed r.
  destruct (sync_unseeded self loop name no_options Hloop)
    as (Hthrown & Hpass).
  fold ups in Hthrown, Hpass. fold answer in Hthrown, Hpass.
  set (s := _sync_package_with_uplinks self loop name None no_options) in *.
  subst r. unfold add_package, check_package_local.
  set (c := check_package_remote self loop name).
  assert (Hremote : c.2 =
            match s.2 with
            | SyncThrown => DoneThrown
            | SyncCallback err results err_results =>
                if match err with
                   | Some e => negb (status_is e 404)
                   | None => false
                   end
                then DoneCallback err
                else match results, err_results with
                     | Some _, _ => DoneCallback (Some Conflict)
                     | None, Some err_results => check_err_results err_results
                     | None, None => DoneThrown
                     end
            end) by done.
  assert (Heffects : ∀ e, e ∈ c.1 → sync_effect name e)
    by apply check_package_remote_effects.
  clearbody c.
  split_and!.
  - intros d Hd. by rewrite Hd.
  - intros e He Hs H304.
    rewrite He. apply status_is_true in Hs. rewrite Hs. simpl.
    assert (Hnot : s.2 ≠ SyncThrown).
    { intros (u & err & Hu & Herr & Hst)%Hthrown.
      specialize (H304 u Hu). unfold not_modified in H304.
      unfold answer in Herr, H304. rewrite Herr in H304.
      apply status_is_false in H304. done. }
    destruct (Hpass Hnot) as (st & errs & Hslots & Hex & _ & Hs2).
    split.
    + intros (u & d & (i & Hu)%list_elem_of_lookup & Hv & Hd & Hrec) Hpersist.
      destruct (Forall2_lookup_l _ _ _ _ _ Hslots Hu) as (slot & Hl & Hslot).
      apply slot_of_reconciled in Hslot.
      2:{ intros d' Hd'. unfold answer in Hd. rewrite Hd in Hd'. by simplify_eq. }
      fold (answer u) in Hslot. rewrite Hv in Hslot. subst slot.
      assert (Hst : st_exists st = true) by (apply Hex; eauto).
      rewrite Hst in Hs2.
      destruct (Hpersist (st_pkginfo st)) as [d' Hd']. rewrite Hd' in Hs2.
      rewrite Hs2 in Hremote. simpl in Hremote.
      by rewrite Hremote.
    + intros Hfail (u & err & Hu & Herr & Hst).
      assert (Hno : st_exists st = false).
      { destruct (st_exists st) eqn:Hst'; [|done].
        destruct Hex as [Hex _]. destruct (Hex eq_refl) as (i & u' & Hu' & Hv & _).
        destruct (Hfail u'); [by eapply list_elem_of_lookup_2|done]. }
      rewrite Hno in Hs2.
      rewrite (slots_all_failed _ _ _ _ _ Hslots Hfail) in Hs2.
      rewrite Hs2 in Hremote. simpl in Hremote.
      rewrite check_err_results_down in Hremote.
      * by rewrite Hremote.
      * apply Forall_fmap, Forall_forall. intros u' Hu'. simpl.
        destruct (response_error name (answer u')) eqn:He'; [done|].
        by destruct (Hfail u' Hu').
      * exists err. split; [|done]. rewrite <- Herr.
        apply list_elem_of_fmap. by exists u.
  - destruct (Local.get_package (local self) name) as [e|d] eqn:Hlocal.
    2:{ intros Hin. set_solver. }
    destruct (status_is e 404) eqn:Hs; simpl.
    2:{ intros Hin. set_solver. }
    intros Hin.
    apply status_is_true in Hs. split; [by exists e|].
    assert (Hpub : c.2 = DoneCallback None).
    { assert (Hlog : ¬ LocalAddPackage name metadata ∈ LocalGetPackage name :: c.1).
      { intros [?|[(?&?&?)|(?&?)]%Heffects]%elem_of_cons; done. }
      destruct c.2 as [|[err|]] eqn:Hc; done. }
    rewrite Hremote in Hpub.
    assert (Hnot : s.2 ≠ SyncThrown) by (intros Hs2; by rewrite Hs2 in Hpub).
    destruct (Hpass Hnot) as (st & errs & Hslots & _ & _ & Hs2).
    rewrite Hs2 in Hpub.
    destruct (st_exists st).
    + destruct (Local.update_versions (local self) name (st_pkginfo st))
        as [e'|d']; simpl in Hpub; [by destruct (status_is e' 404)|done].
    + simpl in Hpub. apply check_err_results_clean in Hpub.
      intros u (i & Hu)%list_elem_of_lookup.
      destruct (Forall2_lookup_l _ _ _ _ _ Hslots Hu) as (slot & Hl & Hslot).
      rewrite Forall_forall in Hpub.
      destruct (Hpub slot) as (err & -> & Hst);
        [by eapply list_elem_of_lookup_2|].
      by exists err.
Qed.

End add_package_properties.

Lemma in_order_completes : completes_each_once in_order.
Proof. by intros rqs. Qed.

Lemma last_first_completes : completes_each_once last_first.
Proof. intros rqs. apply reverse_Permutation. Qed.

(** The stand-in for [Utils.tag_version] does not throw on the tags of
    the remote document of the scenarios. *)
Lemma remote_doc_reconciles : reconciles example_config remote_doc.
Proof.
  intros tags tag v Htag. unfold remote_doc in Htag. simpl in Htag.
  apply lookup_singleton_Some in Htag as [_ <-]. reflexivity.
Qed.

(** Case analysis on the uplinks of an example registry. *)
Ltac each_uplink H :=
  apply list_elem_of_In in H; simpl in H;
  repeat (destruct H as [<- | H]); [..| destruct H].

Ltac is_uplink := apply list_elem_of_In; simpl; tauto.

Lemma add_package_checks_witness :
  (* the name exists locally *)
  (add_package (registry [npmjs; mirror] stocked_local) last_first "pkg" "{}").2
  = DoneCallback (Some Conflict)
  (* npmjs confirms the package, mirror is down *)
  ∧ (add_package (registry [npmjs; mirror] empty_local) last_first "pkg" "{}").2
    = DoneCallback (Some Conflict)
  (* nobody confirms the package, mirror is down *)
  ∧ (add_package (registry [empty_uplink; mirror] empty_local) last_first
       "new" "{}").2
    = DoneCallback (Some ServiceUnavailable)
  (* the package is created: every uplink answered 404 *)
  ∧ ∀ u, u ∈ permitted (registry [empty_uplink] empty_local) "new" →
         ∃ err, status err = Some 404%Z
                ∧ slot_of example_config "new"
                    (Proxy.get_package u "new" no_options) (Some err).
Proof.
  split; [|split; [|split]].
  - destruct (add_package_checks (registry [npmjs; mirror] stocked_local)
                last_first "pkg" "{}" last_first_completes) as (Hlocal & _).
    exact (Hlocal cached_doc eq_refl).
  - destruct (add_package_checks (registry [npmjs; mirror] empty_local)
                last_first "pkg" "{}" last_first_completes) as (_ & Hremote & _).
    destruct (Hremote (ErrorWith 404 "no such package available")
                eq_refl eq_refl) as (Hconfirmed & _).
    + intros u Hu. each_uplink Hu; reflexivity.
    + apply Hconfirmed.
      * exists npmjs, remote_doc.
        split; [is_uplink | split; [reflexivity | split; [reflexivity|]]].
        apply remote_doc_reconciles.
      * intros d. by exists d.
  - destruct (add_package_checks (registry [empty_uplink; mirror] empty_local)
                last_first "new" "{}" last_first_completes) as (_ & Hremote & _).
    destruct (Hremote (ErrorWith 404 "no such package available")
                eq_refl eq_refl) as (_ & Hdown).
    + intros u Hu. each_uplink Hu; reflexivity.
    + apply Hdown.
      * intros u Hu. each_uplink Hu; discriminate.
      * exists mirror, (PlainError "ETIMEDOUT").
        split; [is_uplink | split; [reflexivity | discriminate]].
  - destruct (add_package_checks (registry [empty_uplink] empty_local)
                last_first "new" "{}" last_first_completes) as (_ & _ & Hcreated).
    apply Hcreated. vm_compute. is_uplink.
Defined.

(** The claim C1 fails where an uplink confirms the package and the
    local store cannot persist the merged document: [add_package] hands
    over the error of the store, not a Conflict. *)
Lemma add_package_conflict_counterexample :
  let self := registry [npmjs] readonly_local in
  Local.get_package (local self) "pkg"
  = Local.Err (ErrorWith 404 "no such package available")
  ∧ npmjs ∈ permitted self "pkg"
  ∧ response_error "pkg" (Proxy.get_package npmjs "pkg" no_options) = None
  ∧ (add_package self in_order "pkg" "{}").2
    = DoneCallback (Some (ErrorWith 500 "EROFS"))
  ∧ (add_package self in_order "pkg" "{}").2 ≠ DoneCallback (Some Conflict).
Proof.
  split; [reflexivity|]. split; [is_uplink|]. split; [reflexivity|].
  split; [vm_compute; reflexivity | vm_compute; discriminate].
Qed.

(** ** Fresh records *)

Section freshness_properties.
Context `{Utils}.

Lemma permitted_uplink self name u :
  u ∈ permitted self name →
  u ∈ uplinks self ∧ proxy_access (config self) name (Proxy.upname u) = true.
Proof.
  unfold permitted. rewrite !list_elem_of_In, filter_In. done.
Qed.

Lemma uplink_by_name (l : list Proxy.t) u u' :
  NoDup (Proxy.upname <$> l) → u ∈ l → u' ∈ l →
  Proxy.upname u = Proxy.upname u' → u = u'.
Proof.
  induction l as [|x l IH]; simpl; intros Hnd Hu Hu' Heq; [set_solver|].
  apply NoDup_cons in Hnd as [Hx Hnd].
  apply elem_of_cons in Hu as [->|Hu]; apply elem_of_cons in Hu' as [->|Hu'].
  - done.
  - destruct Hx. rewrite Heq. apply list_elem_of_fmap. eauto.
  - destruct Hx. rewrite <- Heq. apply list_elem_of_fmap. eauto.
  - by apply IH.
Qed.

Lemma dispatch_fresh (now : Z) pkginfo options u table rec f :
  _uplinks pkginfo = Some table → table !! Proxy.upname u = Some rec →
  fetched rec = Some f → f ≠ 0%Z → (now - f < Proxy.maxage u)%Z →
  dispatch now pkginfo options u = Some Skip.
Proof.
  intros Ht Hrec Hf Hnz Hage. unfold dispatch, is_fresh.
  rewrite Ht. simpl. rewrite Hrec, Hf.
  rewrite bool_decide_false, bool_decide_true by lia. done.
Qed.

(** No request is in flight for an uplink whose record is fresh. *)
Lemma fresh_not_requested self (now : Z) name pkginfo options plan u table rec f :
  NoDup (Proxy.upname <$> uplinks self) →
  u ∈ permitted self name →
  _uplinks pkginfo = Some table → table !! Proxy.upname u = Some rec →
  fetched rec = Some f → f ≠ 0%Z → (now - f < Proxy.maxage u)%Z →
  mapM (λ u, pair u <$> dispatch now pkginfo options u) (permitted self name)
  = Some plan →
  ∀ rq, rq ∈ requests plan → Proxy.upname (up rq) ≠ Proxy.upname u.
Proof.
  intros Hnd Hu Ht Hrec Hf Hnz Hage Hplan rq Hrq Hname.
  apply elem_of_requests in Hrq.
  apply (plan_lookup _ _ _ _ _ Hplan) in Hrq as [Hup Hd].
  apply list_elem_of_lookup_2, permitted_uplink in Hup as [Hup _].
  apply permitted_uplink in Hu as [Hu _].
  rewrite (uplink_by_name _ _ _ Hnd Hup Hu Hname) in Hd.
  by rewrite (dispatch_fresh _ _ _ _ _ _ _ Ht Hrec Hf Hnz Hage) in Hd.
Qed.

(** Replacing the answers of an uplink changes neither its name nor
    its [maxage], hence not what the iterator decides for it. *)
Lemma permitted_with_answers k g self name :
  permitted (with_answers k g self) name =
  (λ u, if bool_decide (Proxy.upname u = k) then answering g u else u)
    <$> permitted self name.
Proof.
  unfold permitted, with_answers. simpl.
  induction (uplinks self) as [|x l IH]; [done|].
  rewrite fmap_cons. simpl List.filter. rewrite IH.
  assert (Hname : Proxy.upname (if bool_decide (Proxy.upname x = k)
                                then answering g x else x) = Proxy.upname x)
    by (by case_bool_decide).
  rewrite Hname. by destruct (proxy_access _ _ _).
Qed.

Lemma dispatch_with_answers (now : Z) pkginfo options k g u :
  dispatch now pkginfo options
    (if bool_decide (Proxy.upname u = k) then answering g u else u)
  = dispatch now pkginfo options u.
Proof. by case_bool_decide. Qed.

Lemma plan_with_answers (now : Z) pkginfo options k g (ups : list Proxy.t) :
  let φ u := if bool_decide (Proxy.upname u = k) then answering g u else u in
  mapM (λ u, pair u <$> dispatch now pkginfo options u) (φ <$> ups)
  = fmap (prod_map φ id)
    <$> mapM (λ u, pair u <$> dispatch now pkginfo options u) ups.
Proof.
  intros φ.
  destruct (mapM _ ups) as [plan|] eqn:Hplan; simpl.
  - apply mapM_Some, Forall2_fmap. apply mapM_Some in Hplan.
    eapply Forall2_impl; [exact Hplan|]. intros x [u d]. simpl.
    unfold φ. rewrite dispatch_with_answers.
    destruct (dispatch now pkginfo options x); simpl; [|done].
    intros. by simplify_eq.
  - apply mapM_None, Exists_fmap. apply mapM_None in Hplan.
    eapply Exists_impl; [exact Hplan|]. intros x. simpl.
    unfold φ. rewrite dispatch_with_answers.
    by destruct (dispatch now pkginfo options x).
Qed.

Lemma requests_with_answers (φ : Proxy.t → Proxy.t) plan :
  (∀ rq, rq ∈ requests plan → φ (up rq) = up rq) →
  requests (prod_map φ id <$> plan) = requests plan.
Proof.
  intros Hφ. unfold requests. f_equal. rewrite imap_fmap.
  apply imap_ext. intros i [u d] Hp. simpl.
  destruct d as [|o]; [done|].
  assert (Hu : φ u = u).
  { apply (Hφ {| index := i; up := u; _options := o |}).
    by apply elem_of_requests. }
  by rewrite Hu.
Qed.

(** C4, as the code has it.  During a pass over a local document, an
    uplink whose record has a [fetched] time that is not zero and lies
    within [maxage] of the current time is not called, its record
    reaches the local store unchanged, and its answer has no influence
    on the pass: the calls issued and the result are the same whatever
    the uplink would have answered. *)
Theorem fresh_uplink_is_skipped self loop name seed options u table rec f :
  completes_each_once loop →
  NoDup (Proxy.upname <$> uplinks self) →
  u ∈ permitted self name →
  _uplinks seed = Some table → table !! Proxy.upname u = Some rec →
  fetched rec = Some f → f ≠ 0%Z → (now loop - f < Proxy.maxage u)%Z →
  let r := _sync_package_with_uplinks self loop name (Some seed) options in
  (∀ o, UplinkGetPackage (Proxy.upname u) name o ∉ r.1)
  ∧ (∀ pkginfo, LocalUpdateVersions name pkginfo ∈ r.1 →
       ∃ table', _uplinks pkginfo = Some table'
                 ∧ table' !! Proxy.upname u = Some rec)
  ∧ (∀ get_package,
       _sync_package_with_uplinks (with_answers (Proxy.upname u) get_package self)
         loop name (Some seed) options = r).
Proof.
  intros Hloop Hnd Hu Ht Hrec Hf Hnz Hage r.
  pose proof (fresh_not_requested self (now loop) name seed options) as Hfresh.
  specialize (λ plan, Hfresh plan u table rec f Hnd Hu Ht Hrec Hf Hnz Hage).
  split_and!.
  - intros o Hin. subst r. unfold _sync_package_with_uplinks in Hin.
    simpl in Hin. destruct (mapM _ _) as [plan|] eqn:Hplan; [|set_solver].
    assert (Hcalls :
      ¬ UplinkGetPackage (Proxy.upname u) name o
        ∈ (λ rq, UplinkGetPackage (Proxy.upname (up rq)) name (_options rq))
            <$> requests plan).
    { intros (rq & Heq & Hrq)%list_elem_of_fmap. simplify_eq.
      by eapply Hfresh. }
    destruct (run_callbacks _ _ _ _) as [[st errs]|]; [|done].
    destruct (st_exists st); simpl in Hin; [|done].
    apply elem_of_app in Hin as [?|?%list_elem_of_singleton]; done.
  - intros pkginfo Hin. subst r. unfold _sync_package_with_uplinks in Hin.
    simpl in Hin. destruct (mapM _ _) as [plan|] eqn:Hplan; [|set_solver].
    assert (Hcalls : ∀ rqs : list Request,
      ¬ LocalUpdateVersions name pkginfo
        ∈ (λ rq, UplinkGetPackage (Proxy.upname (up rq)) name (_options rq))
            <$> rqs).
    { by intros rqs (rq & Heq & Hrq)%list_elem_of_fmap. }
    destruct (run_callbacks _ _ _ _) as [[st errs]|] eqn:Hrun;
      [|by apply Hcalls in Hin].
    destruct (st_exists st); simpl in Hin; [|by apply Hcalls in Hin].
    apply elem_of_app in Hin as [Hin|Hin%list_elem_of_singleton];
      [by apply Hcalls in Hin|].
    simplify_eq.
    destruct (run_callbacks_frame _ _ _ _ _ _ _ table Hrun Ht)
      as (_ & _ & table' & Ht' & Hother & _).
    exists table'. split; [done|]. rewrite Hother; [done|].
    intros rq Hrq. rewrite (Hloop _) in Hrq. by eapply Hfresh.
  - intros g. subst r. unfold _sync_package_with_uplinks. simpl.
    rewrite permitted_with_answers, plan_with_answers, length_fmap.
    destruct (mapM _ (permitted self name)) as [plan|] eqn:Hplan; simpl; [|done].
    rewrite requests_with_answers; [done|].
    intros rq Hrq. rewrite bool_decide_false; [done|]. by eapply Hfresh.
Qed.

End freshness_properties.

Lemma fresh_uplink_is_skipped_witness :
  let self := registry [npmjs; mirror] stocked_local in
  let r := _sync_package_with_uplinks self last_first "pkg" (Some cached_doc)
             no_options in
  (* the record of npmjs was fetched at 900, it is 1000, maxage is 5000 *)
  (∀ o, UplinkGetPackage "npmjs" "pkg" o ∉ r.1)
  ∧ (∀ pkginfo, LocalUpdateVersions "pkg" pkginfo ∈ r.1 →
       ∃ table', _uplinks pkginfo = Some table'
                 ∧ table' !! "npmjs"
                   = Some {| etag := Some "etag-1"; fetched := Some 900%Z |})
  ∧ (∀ get_package,
       _sync_package_with_uplinks (with_answers "npmjs" get_package self)
         last_first "pkg" (Some cached_doc) no_options = r).
Proof.
  apply (fresh_uplink_is_skipped
           (registry [npmjs; mirror] stocked_local) last_first "pkg"
           cached_doc no_options npmjs
           {[ "npmjs" := {| etag := Some "etag-1"; fetched := Some 900%Z |};
              "mirror" := {| etag := Some "m-1"; fetched := Some 100%Z |} ]}
           {| etag := Some "etag-1"; fetched := Some 900%Z |} 900%Z).
  - exact last_first_completes.
  - simpl. repeat constructor; set_solver.
  - is_uplink.
  - reflexivity.
  - reflexivity.
  - reflexivity.
  - lia.
  - simpl. lia.
Defined.

(** The claim C4 fails for a record fetched at time zero: the time lies
    within [maxage] of the clock, yet the uplink is called. *)
Lemma fresh_uplink_counterexample :
  let self := registry [mirror] stocked_local in
  let rec := {| etag := Some "m-1"; fetched := Some 0%Z |} in
  _uplinks epoch_doc = Some {[ "mirror" := rec ]}
  ∧ fetched rec = Some 0%Z
  ∧ (now in_order - 0 < Proxy.maxage mirror)%Z
  ∧ UplinkGetPackage "mirror" "pkg" {| o_etag := Some "m-1" |}
    ∈ (_sync_package_with_uplinks self in_order "pkg" (Some epoch_doc)
         no_options).1.
Proof.
  split; [reflexivity|]. split; [reflexivity|]. split; [simpl; lia|].
  vm_compute. apply list_elem_of_In. simpl. tauto.
Qed.

(** ** Reading a package *)

Section get_package_properties.
Context `{Utils}.

Lemma present_unless_key {A} i key (o : option A) :
  present key (unless_key i key o) = present key o ∖ {[ i ]}.
Proof.
  unfold present, unless_key. case_bool_decide; destruct o; set_solver.
Qed.

Lemma own_keys_delete_key i d :
  i ≠ "versions" → i ≠ "dist-tags" →
  own_keys (delete_key i d) = own_keys d ∖ {[ i ]}.
Proof.
  intros Hv Ht. unfold own_keys, delete_key. simpl.
  rewrite !present_unless_key, dom_delete_L.
  generalize (present "_rev" (_rev d)) (present "name" (name d))
    (present "readme" (readme d)) (present "_uplinks" (_uplinks d))
    (present "_distfiles" (_distfiles d))
    (present "_attachments" (_attachments d)) (dom (others d)).
  intros. set_solver.
Qed.

(** After the loop over the properties only whitelisted ones are left;
    the versions and the tags are as they were. *)
Lemma project_whitelist_spec result :
  versions (project_whitelist result) = versions result
  ∧ dist_tags (project_whitelist result) = dist_tags result
  ∧ own_keys (project_whitelist result) ⊆ list_to_set whitelist.
Proof.
  unfold project_whitelist.
  cut (versions (set_fold (λ i r, if bool_decide (i ∈ whitelist) then r
                                  else delete_key i r) result (own_keys result))
       = versions result
       ∧ dist_tags (set_fold (λ i r, if bool_decide (i ∈ whitelist) then r
                                     else delete_key i r) result (own_keys result))
         = dist_tags result
       ∧ own_keys (set_fold (λ i r, if bool_decide (i ∈ whitelist) then r
                                    else delete_key i r) result (own_keys result))
         ⊆ own_keys result
       ∧ ∀ k, k ∈ own_keys result → k ∉ whitelist →
              k ∉ own_keys (set_fold (λ i r, if bool_decide (i ∈ whitelist) then r
                                             else delete_key i r)
                              result (own_keys result))).
  { intros (Hv & Ht & Hsub & Hdel). split_and!; [done..|].
    intros k Hk. apply elem_of_list_to_set.
    destruct (decide (k ∈ whitelist)) as [|Hnot]; [done|].
    destruct (Hdel k (Hsub k Hk) Hnot Hk). }
  apply (set_fold_ind_L (λ r X,
    versions r = versions result ∧ dist_tags r = dist_tags result
    ∧ own_keys r ⊆ own_keys result
    ∧ ∀ k, k ∈ X → k ∉ whitelist → k ∉ own_keys r)).
  - split_and!; [done..|]. set_solver.
  - intros i X r Hi (Hv & Ht & Hsub & Hdel).
    case_bool_decide as Hw.
    + split_and!; [done..|]. intros k [->%elem_of_singleton|Hk]%elem_of_union; auto.
    + assert (i ≠ "versions" ∧ i ≠ "dist-tags") as [? ?].
      { split; intros ->; apply Hw; unfold whitelist; set_solver. }
      rewrite own_keys_delete_key by done.
      split_and!; [done|done| |].
      * intros k [Hk _]%elem_of_difference. by apply Hsub.
      * intros k Hk Hnot [Hin Hne]%elem_of_difference.
        apply elem_of_union in Hk as [->%elem_of_singleton|Hk].
        -- apply Hne. by apply elem_of_singleton.
        -- by apply (Hdel k Hk Hnot).
Qed.





(** C7, as the code has it.  An error of the local store without a
    status, with status zero or with a status of 500 or more ends
    [get_package] at once with that error, and no uplink is called.  Any
    other error of the local store, 404 or not, is tolerated: the pass
    over the uplinks follows, without a local document. *)
Theorem get_package_local_error self loop name options e :
  Local.get_package (local self) name = Local.Err e →
  (status e = None ∨ status e = Some 0%Z
   ∨ (∃ s, status e = Some s ∧ (500 ≤ s)%Z) →
   get_package self loop name options
   = ([LocalGetPackage name], SyncCallback (Some e) None None))
  ∧ ((∃ s, status e = Some s ∧ s ≠ 0%Z ∧ (s < 500)%Z) →
     (get_package self loop name options).1
     = LocalGetPackage name
       :: (_sync_package_with_uplinks self loop name None options).1).
Proof.
  intros Hlocal. unfold get_package. rewrite Hlocal.
  unfold no_status, status_ge. split.
  - intros [Hs|[Hs|(s & Hs & Hge)]]; rewrite Hs; simpl; [done|done|].
    rewrite (bool_decide_true (500 ≤ s)%Z) by done. by rewrite orb_true_r.
  - intros (s & Hs & Hnz & Hlt). rewrite Hs.
    rewrite !bool_decide_false by lia. done.
Qed.

End get_package_properties.


Lemma get_package_local_error_witness :
  get_package (registry [npmjs] broken_local) in_order "pkg" no_options
  = ([LocalGetPackage "pkg"], SyncCallback (Some (ErrorWith 500 "EIO")) None None)
  ∧ (get_package (registry [npmjs] forbidden_local) in_order "pkg" no_options).1
    = LocalGetPackage "pkg"
      :: (_sync_package_with_uplinks (registry [npmjs] forbidden_local)
            in_order "pkg" None no_options).1.
Proof.
  split.
  - destruct (get_package_local_error (registry [npmjs] broken_local) in_order
                "pkg" no_options (ErrorWith 500 "EIO") eq_refl) as [Habort _].
    apply Habort. right. right. exists 500%Z. split; [reflexivity | lia].
  - destruct (get_package_local_error (registry [npmjs] forbidden_local) in_order
                "pkg" no_options (ErrorWith 403 "forbidden") eq_refl)
      as [_ Htolerated].
    apply Htolerated. exists 403%Z. split; [reflexivity | lia].
Defined.

(** The claim C7 fails for a local error of status 403: it is not 404,
    yet [get_package] goes on, calls the uplink and answers with the
    document of the uplink. *)
Lemma get_package_local_error_counterexample :
  let self := registry [npmjs] forbidden_local in
  let r := get_package self in_order "pkg" no_options in
  Local.get_package (local self) "pkg" = Local.Err (ErrorWith 403 "forbidden")
  ∧ status (ErrorWith 403 "forbidden") ≠ Some 404%Z
  ∧ UplinkGetPackage "npmjs" "pkg" no_options ∈ r.1
  ∧ r.2 ≠ SyncCallback (Some (ErrorWith 403 "forbidden")) None None.
Proof.
  split; [reflexivity|]. split; [discriminate|]. split.
  - vm_compute. apply list_elem_of_In. simpl. tauto.
  - vm_compute. discriminate.
Qed.

(** ** Tarballs *)

Section get_tarball_properties.
Context `{Utils}.

Lemma select_uplink_last (uplinks : list Proxy.t) file acc :
  fold_left (λ uplink p,
               if Proxy.can_fetch_url p (url file) then Some p else uplink)
            uplinks acc
  = match last (List.filter (λ p, Proxy.can_fetch_url p (url file)) uplinks) with
    | Some p => Some p
    | None => acc
    end.
Proof.
  revert acc. induction uplinks as [|p uplinks IH]; intros acc; simpl; [done|].
  rewrite IH. destruct (Proxy.can_fetch_url p (url file)); [|done].
  rewrite last_cons. by destruct (last _).
Qed.

(** C6, as the code has it.  The loop over the uplinks keeps the last
    uplink that can fetch the URL of the file, and a throwaway uplink
    bound to that URL is made exactly when no configured uplink can. *)
Theorem serve_file_selects_last_match self file :
  let matching :=
    List.filter (λ p, Proxy.can_fetch_url p (url file)) (uplinks self) in
  serve_file self file
  = match last matching with
    | Some uplink => Configured uplink
    | None => Autogenerated (url file)
    end
  ∧ (serve_file self file = Autogenerated (url file) ↔ matching = []).
Proof.
  intros matching. unfold serve_file, select_uplink.
  rewrite select_uplink_last. fold matching.
  destruct (last matching) as [p|] eqn:Hlast.
  - split; [done|]. split; [done|]. intros Hm. by rewrite Hm in Hlast.
  - split; [done|]. split; [|done]. intros _. by apply last_None.
Qed.




End get_tarball_properties.

(** The claim C6 fails where two uplinks can fetch the file: the local
    stream reports 404, the local document lists the URL, and the file
    is served by mirror, the last of the two, not by npmjs. *)
Lemma serve_file_counterexample :
  let self := registry [npmjs; mirror] tarball_local in
  Proxy.can_fetch_url npmjs (url tarball) = true
  ∧ Proxy.can_fetch_url mirror (url tarball) = true
  ∧ head (List.filter (λ p, Proxy.can_fetch_url p (url tarball)) (uplinks self))
    = Some npmjs
  ∧ (output
       <$> get_tarball self in_order "pkg" "pkg-2.1.0.tgz"
             [EvError (ErrorWith 404 "no such file available")]
             get_tarball_start)
    = Some [OutServe (Configured mirror) tarball]
  ∧ serve_file self tarball ≠ Configured npmjs.
Proof.
  split; [reflexivity|]. split; [reflexivity|]. split; [reflexivity|].
  split; [reflexivity|].
  intros Heq. apply (f_equal (λ s, match s with
                                   | Configured u => Proxy.upname u
                                   | Autogenerated _ => ""
                                   end)) in Heq.
  vm_compute in Heq. discriminate.
Qed.

Lemma serve_file_selects_last_match_witness :
  serve_file (registry [npmjs; mirror] tarball_local) tarball = Configured mirror
  ∧ serve_file (registry [empty_uplink] tarball_local) tarball
    = Autogenerated "https://registry.npmjs.org/pkg/-/pkg-2.1.0.tgz".
Proof.
  split.
  - destruct (serve_file_selects_last_match
                (registry [npmjs; mirror] tarball_local) tarball) as [Hlast _].
    exact Hlast.
  - destruct (serve_file_selects_last_match
                (registry [empty_uplink] tarball_local) tarball) as [_ Hnone].
    apply Hnone. reflexivity.
Defined.


(** ** The local listing *)

Section get_local_properties.
Context `{Utils}.

Lemma getPackage_spec self rest calls warnings packages :
  getPackage self rest calls warnings packages
  = Build_Listing (calls ++ (LocalGetPackage <$> rest))
                  (warnings ++ omap (warned self) rest)
                  None
                  (packages ++ omap (listed self) rest).
Proof.
  revert calls warnings packages.
  induction rest as [|name rest IH]; intros calls warnings packages; simpl.
  - by rewrite !app_nil_r.
  - unfold warned, listed.
    destruct (Local.get_package (local self) name) as [e|info]; simpl.
    + rewrite IH. by rewrite <- app_assoc.
    + destruct (latest_version info) as [v|]; rewrite IH;
        by rewrite <- !app_assoc.
Qed.

(** C10. [get_local] hands a null error to its callback, whatever the
    local store answers.  It fetches every name of the local list in
    turn.  The packages listed are the latest versions of the names that
    load and have one, in the order of the list; a name whose fetch
    fails adds neither a package nor a warning. *)
Theorem get_local_never_fails self :
  let locals := localList (config self) in
  let r := get_local self in
  callback_err r = None
  ∧ calls r = LocalGetPackage <$> locals
  ∧ packages r = omap (listed self) locals
  ∧ warnings r = omap (warned self) locals
  ∧ ∀ name e, Local.get_package (local self) name = Local.Err e →
              listed self name = None ∧ warned self name = None.
Proof.
  intros locals r. subst r. unfold get_local. rewrite getPackage_spec. simpl.
  split_and!; [done..|].
  intros name e He. unfold listed, warned. by rewrite He.
Qed.

End get_local_properties.

Lemma get_local_never_fails_witness :
  let r := get_local (registry [npmjs] stocked_local) in
  callback_err r = None
  ∧ calls r = [LocalGetPackage "pkg"; LocalGetPackage "gone";
                LocalGetPackage "untagged"]
  ∧ packages r = [Version "local body of 2.0.0"]
  ∧ warnings r = ["untagged"]
  ∧ listed (registry [npmjs] stocked_local) "gone" = None
  ∧ warned (registry [npmjs] stocked_local) "gone" = None.
Proof.
  destruct (get_local_never_fails (registry [npmjs] stocked_local))
    as (Herr & Hcalls & Hpackages & Hwarnings & Hfailed).
  destruct (Hfailed "gone" (ErrorWith 404 "no such package available") eq_refl)
    as [Hlisted Hwarned].
  split; [exact Herr|]. split; [exact Hcalls|]. split; [exact Hpackages|].
  split; [exact Hwarnings|]. split; [exact Hlisted | exact Hwarned].
Defined.

(** ** Streaming a file from an uplink *)

Section serve_properties.
Context `{Utils}.

Lemma serve_snoc self name filename file events ev :
  serve self name filename file (events ++ [ev])
  = on_serve_event (serve_file self file) file ev
      (serve self name filename file events).
Proof. unfold serve. by rewrite foldl_snoc. Qed.

Lemma on_serve_event_started uplink file ev st :
  started (on_serve_event uplink file ev st) = started st || is_save_event ev.
Proof.
  destruct ev, st as [[] []]; reflexivity.
Qed.

Lemma serve_started self name filename file events :
  started (serve self name filename file events)
  = existsb is_save_event events.
Proof.
  induction events as [|ev events IH] using rev_ind; [done|].
  rewrite serve_snoc, on_serve_event_started, IH, existsb_app. simpl.
  by rewrite orb_false_r.
Qed.

Lemma on_serve_event_get_url uplink file ev st :
  length (List.filter is_get_url (actions st)) = (if started st then 1 else 0)%nat →
  length (List.filter is_get_url (actions (on_serve_event uplink file ev st)))
  = (if started st || is_save_event ev then 1 else 0)%nat.
Proof.
  destruct ev, st as [[] [] l]; simpl; intros Hl;
    rewrite ?List.filter_app, ?length_app; simpl; lia.
Qed.

(** X1. Whatever the two streams do, [serve_file] opens the stream of
    the uplink at most once: once when the cache stream has opened or
    failed, never before. *)
Theorem serve_file_fetches_once self name filename file events :
  length (List.filter is_get_url
            (actions (serve self name filename file events)))
  = (if existsb is_save_event events then 1 else 0)%nat.
Proof.
  induction events as [|ev events IH] using rev_ind; [done|].
  rewrite serve_snoc, existsb_app. simpl. rewrite orb_false_r.
  rewrite <- (serve_started self name filename file events).
  apply on_serve_event_get_url. by rewrite IH, serve_started.
Qed.

Lemma after_abort_app_none l l' :
  existsb is_abort l = false → after_abort (l ++ l') = after_abort l'.
Proof.
  induction l as [|a l IH]; simpl; [done|].
  destruct a; simpl; try done; by apply IH.
Qed.

Lemma after_abort_app_some l l' :
  existsb is_abort l = true → after_abort (l ++ l') = after_abort l ++ l'.
Proof.
  induction l as [|a l IH]; simpl; [done|].
  destruct a; simpl; try done; by apply IH.
Qed.

Lemma on_serve_event_abort uplink file ev st :
  existsb is_abort (actions st) = negb (savestream st) →
  Forall (λ a, to_save a = false) (after_abort (actions st)) →
  let st' := on_serve_event uplink file ev st in
  existsb is_abort (actions st') = negb (savestream st')
  ∧ Forall (λ a, to_save a = false) (after_abort (actions st')).
Proof.
  intros Hab Hafter. destruct st as [save start l]. simpl in *.
  destruct save; simpl in Hab.
  - destruct ev, start; simpl;
      rewrite ?existsb_app, ?Hab, ?app_nil_r, <- ?app_assoc,
        ?after_abort_app_none by done; simpl;
      rewrite ?Hab; (split; [done|]); repeat constructor; done.
  - destruct ev, start; simpl;
      rewrite ?existsb_app, ?Hab, ?app_nil_r, <- ?app_assoc,
        ?after_abort_app_some by done; simpl;
      (split; [done|]); rewrite ?Forall_app; repeat split;
      try done; repeat constructor.
Qed.

(** X2. The write stream of the cache is aborted at most once, and
    after the abort [serve_file] does not touch it again: no pipe, no
    content-length, no [done()]. *)
Theorem serve_file_leaves_aborted_cache self name filename file events :
  Forall (λ a, to_save a = false)
         (after_abort (actions (serve self name filename file events))).
Proof.
  cut (let st := serve self name filename file events in
       existsb is_abort (actions st) = negb (savestream st)
       ∧ Forall (λ a, to_save a = false) (after_abort (actions st))).
  { by intros [_ ?]. }
  induction events as [|ev events [IH1 IH2]] using rev_ind.
  - simpl. split; [done|]. constructor.
  - rewrite serve_snoc. by apply on_serve_event_abort.
Qed.

Lemma on_serve_event_signals uplink file ev st :
  omap emitted (actions (on_serve_event uplink file ev st))
  = omap emitted (actions st)
    ++ (if started st then option_list (signalled ev) else []).
Proof.
  destruct ev, st as [[] [] l]; simpl;
    rewrite ?omap_app, ?app_nil_r, <- ?app_assoc; simpl; by rewrite ?app_nil_r.
Qed.

Lemma after_start_snoc events ev :
  after_start (events ++ [ev])
  = if existsb is_save_event events then after_start events ++ [ev] else [].
Proof.
  induction events as [|e events IH]; simpl.
  - by destruct (is_save_event ev).
  - destruct (is_save_event e); simpl; [done|]. apply IH.
Qed.

(** X3. The stream handed to the caller receives every error and every
    content-length of the stream of the uplink, in their order, and
    nothing else of that kind: an error of the cache stream is never
    passed on to the caller. *)
Theorem serve_file_forwards_uplink_signals self name filename file events :
  omap emitted (actions (serve self name filename file events))
  = omap signalled (after_start events).
Proof.
  induction events as [|ev events IH] using rev_ind; [done|].
  rewrite serve_snoc, on_serve_event_signals, IH, serve_started,
    after_start_snoc.
  destruct (existsb is_save_event events) eqn:Hex; simpl.
  - rewrite omap_app. simpl. by destruct (signalled ev).
  - rewrite app_nil_r. clear IH.
    induction events as [|e events IH]; [done|]. simpl in *.
    destruct (is_save_event e); [done|]. by apply IH.
Qed.

Lemma on_serve_event_savestream uplink file ev st :
  savestream (on_serve_event uplink file ev st)
  = savestream st
    && match ev with
       | SaveError _ => false
       | UpError _ => negb (started st)
       | _ => true
       end.
Proof. destruct ev, st as [[] [] l]; reflexivity. Qed.

(** The cache stream is live as long as it has not failed and the
    stream of the uplink has not failed. *)
Lemma serve_savestream self name filename file events :
  savestream (serve self name filename file events) = true ↔
  (∀ err, SaveError err ∉ events) ∧ (∀ err, UpError err ∉ after_start events).
Proof.
  induction events as [|ev events IH] using rev_ind.
  - simpl. split; [|done]. intros _. split; intros err Hin; inversion Hin.
  - rewrite serve_snoc, on_serve_event_savestream, andb_true_iff, IH,
      serve_started, after_start_snoc.
    setoid_rewrite elem_of_app. setoid_rewrite list_elem_of_singleton.
    destruct (existsb is_save_event events) eqn:Hex; simpl.
    + setoid_rewrite elem_of_app. setoid_rewrite list_elem_of_singleton.
      destruct ev; naive_solver.
    + assert (Hnone : ∀ err, UpError err ∉ after_start events).
      { clear IH. induction events as [|e events IH]; simpl in *.
        - intros err Hin. inversion Hin.
        - destruct (is_save_event e); [done|]. by apply IH. }
      split.
      * intros [[H1 H2] Hm]. split.
        -- intros err [Hin|Heq]; [by eapply H1|]. by subst ev.
        -- intros err Hin. inversion Hin.
      * intros [H1 _]. split.
        -- split; [|done]. intros err Hin. eapply H1. by left.
        -- destruct ev; try done. destruct (H1 err). by right.
Qed.

Lemma on_serve_event_done uplink file ev st :
  SaveDone ∈ actions (on_serve_event uplink file ev st) ↔
  SaveDone ∈ actions st
  ∨ (ev = UpEnd ∧ started st = true ∧ savestream st = true).
Proof.
  destruct ev, st as [[] [] l]; simpl;
    rewrite ?elem_of_app, ?elem_of_cons, ?elem_of_nil; naive_solver.
Qed.

(** X4. [done()], which commits the cached file, is called exactly when
    the stream of the uplink ends after the cache stream has opened and
    neither stream has failed before. *)
Theorem serve_file_commits_clean_transfer self name filename file events :
  SaveDone ∈ actions (serve self name filename file events) ↔
  ∃ pre post,
    events = pre ++ UpEnd :: post
    ∧ SaveOpen ∈ pre
    ∧ (∀ err, SaveError err ∉ pre)
    ∧ (∀ err, UpError err ∉ after_start pre).
Proof.
  induction events as [|ev events IH] using rev_ind.
  - simpl. split.
    + intros Hin. apply elem_of_cons in Hin as [?|Hin]; [done|inversion Hin].
    + intros (pre & post & Heq & _). by destruct pre.
  - rewrite serve_snoc, on_serve_event_done, IH. split.
    + intros [(pre & post & -> & Hrest)|(-> & Hstarted & Hsave)].
      * exists pre, (post ++ [ev]). by rewrite <- app_assoc.
      * exists events, []. split; [done|].
        apply serve_savestream in Hsave as [Hs Hu].
        split; [|done].
        rewrite serve_started in Hstarted.
        apply existsb_exists in Hstarted as (e & Hin%list_elem_of_In & He).
        destruct e; try done. by destruct (Hs err).
    + intros (pre & post & Heq & Hopen & Hs & Hu).
      destruct post as [|e post _] using rev_ind.
      * apply app_inj_tail in Heq as [<- <-]. right. split; [done|].
        split.
        -- rewrite serve_started. apply existsb_exists.
           exists SaveOpen. by rewrite <- list_elem_of_In.
        -- by apply serve_savestream.
      * rewrite app_comm_cons, app_assoc in Heq.
        apply app_inj_tail in Heq as [-> <-]. left. by exists pre, post.
Qed.

End serve_properties.

Lemma serve_file_commits_clean_transfer_witness :
  let events := [SaveOpen; UpContentLength 512; UpEnd] in
  SaveDone ∈ actions (serve (registry [npmjs; mirror] tarball_local)
                        "pkg" "pkg-2.1.0.tgz" tarball events).
Proof.
  intros events.
  apply (serve_file_commits_clean_transfer
           (registry [npmjs; mirror] tarball_local)
           "pkg" "pkg-2.1.0.tgz" tarball events).
  exists [SaveOpen; UpContentLength 512], []. split; [reflexivity|].
  split; [apply list_elem_of_In; simpl; tauto|].
  split; intros err Hin; apply list_elem_of_In in Hin; simpl in Hin;
    intuition discriminate.
Defined.

Example serve_file_without_cache :
  actions (serve (registry [npmjs; mirror] tarball_local) "pkg" "pkg-2.1.0.tgz"
             tarball [SaveError (PlainError "EACCES"); UpContentLength 512; UpEnd])
  = [AddTarball "pkg" "pkg-2.1.0.tgz"; Warn (PlainError "EACCES"); SaveAbort;
     GetUrl (Configured mirror) (url tarball); PipeToStream;
     EmitContentLength 512].
Proof. reflexivity. Qed.

(** ** Search *)

Section search_properties.
Context `{Utils}.

(** X5. [search] asks the uplinks in their order and stops at the first
    one that answers without an error and with a status below 400: the
    uplinks before it are asked and given up, the ones after it are not
    asked, and its body is the one the local packages are merged into. *)
Theorem remote_search_first_reachable world bad good rest :
  query_local world = false →
  Forall (λ u, request_failed (request world u) = true) bad →
  request_failed (request world good) = false →
  remote_search world (bad ++ good :: rest)
  = (Proxy.upname <$> bad ++ [good], body (request world good)).
Proof.
  intros Hq Hbad Hgood. induction Hbad as [|u bad Hu _ IH]; simpl.
  - by rewrite Hq, Hgood.
  - by rewrite Hq, Hu, IH.
Qed.

(** The state after the reads of a prefix of the local packages. *)
Lemma merge_prefix self listL body0 items :
  (length items ≤ listL)%nat →
  let st := foldl (λ st item, on_local_package self listL item st)
                  {| m_body := body0; j := 0; callbacks := [] |} items in
  (j st + length (failed_reads self items) = length items)%nat
  ∧ callbacks st
    = (SearchErr <$> failed_reads self items)
      ++ (if bool_decide (length items = listL ∧ failed_reads self items = []
                          ∧ items ≠ [])
          then [SearchOk (m_body st)] else []).
Proof.
  induction items as [|item items IH] using rev_ind; intros Hlen.
  - simpl. split; [done|]. rewrite bool_decide_false; [done|]. naive_solver.
  - rewrite length_app in Hlen. simpl in Hlen.
    destruct IH as [IHj IHc]; [lia|]. cbv zeta.
    rewrite foldl_snoc.
    set (st := foldl _ _ items) in *.
    unfold failed_reads in *. rewrite omap_app, !length_app. simpl.
    rewrite (bool_decide_false (length items = listL ∧ _)) in IHc by lia.
    rewrite app_nil_r in IHc.
    unfold on_local_package.
    destruct (Local.get_package (local self) (item_name item)) as [err|data];
      simpl.
    + split; [lia|]. rewrite IHc, fmap_app. simpl.
      rewrite bool_decide_false; [by rewrite app_nil_r|].
      intros (_ & Hnil & _). by destruct (omap _ items).
    + split; [lia|]. rewrite IHc, !app_nil_r.
      destruct (omap _ items) as [|e errs] eqn:Hfailed; simpl in *.
      * case_bool_decide as Hj.
        -- rewrite bool_decide_true; [done|].
           split; [lia|]. split; [done|]. by destruct items.
        -- rewrite bool_decide_false; [done|]. intros (? & _). lia.
      * rewrite (bool_decide_false (S (j st) = listL)) by lia.
        rewrite bool_decide_false; [by rewrite app_nil_r|]. naive_solver.
Qed.

(** X6. When the list of recent local packages is not empty, [search]
    reports success once, and only if every local package of the list
    can be read; otherwise it calls back once for each package that
    cannot be read, with the error of that read, and never with a
    result. *)
Theorem search_callbacks self world startkey list :
  get_recent_packages world startkey = Local.Ok list → list ≠ [] →
  settle world list ≡ₚ list →
  let failed := failed_reads self (settle world list) in
  let r := search self world startkey in
  (failed = [] → ∃ body, r.2 = [SearchOk body])
  ∧ (failed ≠ [] → r.2 = SearchErr <$> failed).
Proof.
  intros Hrecent Hne Hperm failed r. subst r. unfold search. simpl.
  unfold merge_with_local_packages. rewrite Hrecent.
  destruct list as [|item list]; [done|].
  set (items := item :: list) in *.
  destruct (merge_prefix self (length items) (remote_search world (uplinks self)).2
              (settle world items)) as [_ Hc].
  { by rewrite Hperm. }
  rewrite Hc. fold failed. split.
  - intros ->. simpl. eexists. rewrite bool_decide_true; [done|].
    split; [by rewrite Hperm|]. split; [done|].
    intros Hnil. rewrite Hnil in Hperm. by apply Permutation_nil_l in Hperm.
  - intros Hfailed. rewrite bool_decide_false; [by rewrite app_nil_r|].
    naive_solver.
Qed.

(** Where the entries of a reported body come from. *)
Lemma merge_bodies self listL body0 items :
  let st := foldl (λ st item, on_local_package self listL item st)
                  {| m_body := body0; j := 0; callbacks := [] |} items in
  let sound (body : gmap string SearchEntry) :=
    (∀ k, (∀ item, item ∈ items → item_name item ≠ k) →
          body !! k = body0 !! k)
    ∧ (∀ k e, body !! k = Some e →
         body0 !! k = Some e
         ∨ ∃ item data, item ∈ items ∧ item_name item = k
             ∧ Local.get_package (local self) k = Local.Ok data
             ∧ local_entry data item = Some e) in
  sound (m_body st) ∧ ∀ body, SearchOk body ∈ callbacks st → sound body.
Proof.
  induction items as [|item items IH] using rev_ind.
  - simpl. split; [by split; auto|]. intros body Hin. inversion Hin.
  - cbv zeta in *. rewrite foldl_snoc.
    set (st := foldl _ _ items) in *.
    destruct IH as [[IHkeep IHfrom] IHc].
    assert (Hweak : ∀ body : gmap string SearchEntry,
      ((∀ k, (∀ item, item ∈ items → item_name item ≠ k) →
             body !! k = body0 !! k)
       ∧ (∀ k e, body !! k = Some e →
            body0 !! k = Some e
            ∨ ∃ item data, item ∈ items ∧ item_name item = k
                ∧ Local.get_package (local self) k = Local.Ok data
                ∧ local_entry data item = Some e)) →
      ((∀ k, (∀ item', item' ∈ items ++ [item] → item_name item' ≠ k) →
             body !! k = body0 !! k)
       ∧ (∀ k e, body !! k = Some e →
            body0 !! k = Some e
            ∨ ∃ item' data, item' ∈ items ++ [item] ∧ item_name item' = k
                ∧ Local.get_package (local self) k = Local.Ok data
                ∧ local_entry data item' = Some e))).
    { intros body [Hk Hf]. split.
      - intros k Hnot. apply Hk. intros i Hi. apply Hnot. set_solver.
      - intros k e Hke. destruct (Hf k e Hke) as [?|(i & d & Hi & ?)]; [by left|].
        right. exists i, d. split; [set_solver|done]. }
    unfold on_local_package.
    destruct (Local.get_package (local self) (item_name item)) as [err|data]
      eqn:Hget; simpl.
    + split; [by apply Hweak|].
      intros body [Hin|Hin%list_elem_of_singleton]%elem_of_app; [|done].
      by apply Hweak, IHc.
    + assert (Hnew :
        (∀ k, (∀ item', item' ∈ items ++ [item] → item_name item' ≠ k) →
           match local_entry data item with
           | Some entry => <[item_name item:=entry]> (m_body st)
           | None => m_body st
           end !! k = body0 !! k)
        ∧ (∀ k e,
             match local_entry data item with
             | Some entry => <[item_name item:=entry]> (m_body st)
             | None => m_body st
             end !! k = Some e →
             body0 !! k = Some e
             ∨ ∃ item' data', item' ∈ items ++ [item] ∧ item_name item' = k
                 ∧ Local.get_package (local self) k = Local.Ok data'
                 ∧ local_entry data' item' = Some e)).
      { destruct (local_entry data item) as [entry|] eqn:Hentry;
          [|by apply Hweak].
        split.
        - intros k Hnot. rewrite lookup_insert_ne.
          + apply IHkeep. intros i Hi. apply Hnot. set_solver.
          + apply Hnot. set_solver.
        - intros k e. destruct (decide (item_name item = k)) as [<-|Hk].
          + rewrite lookup_insert_eq. intros [= <-]. right.
            exists item, data. split; [set_solver|done].
          + rewrite lookup_insert_ne by done. intros Hke.
            destruct (IHfrom k e Hke) as [?|(i & d & Hi & ?)]; [by left|].
            right. exists i, d. split; [set_solver|done]. }
      split; [done|].
      intros body [Hin|Hin]%elem_of_app; [by apply Hweak, IHc|].
      case_bool_decide; [|inversion Hin].
      apply list_elem_of_singleton in Hin. by simplify_eq.
Qed.

(** X7. In a body that [search] reports, an entry under a name that no
    recent local package has is the entry the uplink sent, and every
    entry is either the one the uplink sent or the summary of a local
    package of that name. *)
Theorem search_body_entries self world startkey body :
  SearchOk body ∈ (search self world startkey).2 →
  let remote := (remote_search world (uplinks self)).2 in
  let items := match get_recent_packages world startkey with
               | Local.Ok list => settle world list
               | Local.Err _ => []
               end in
  (∀ k, (∀ item, item ∈ items → item_name item ≠ k) → body !! k = remote !! k)
  ∧ (∀ k e, body !! k = Some e →
       remote !! k = Some e
       ∨ ∃ item data, item ∈ items ∧ item_name item = k
           ∧ Local.get_package (local self) k = Local.Ok data
           ∧ local_entry data item = Some e).
Proof.
  unfold search, merge_with_local_packages. simpl.
  destruct (get_recent_packages world startkey) as [err|list].
  { intros Hin. apply list_elem_of_singleton in Hin. done. }
  destruct list as [|item list].
  - intros Hin. apply list_elem_of_singleton in Hin. simplify_eq.
    cbv zeta. split; [done|]. intros k e ?. by left.
  - intros Hin. by apply (merge_bodies self _ _ _) in Hin.
Qed.

(** X8. With [options.req.query.local] defined, [search] asks no uplink
    and every entry it reports is the summary of a local package. *)
Theorem search_local_only self world startkey :
  query_local world = true →
  let r := search self world startkey in
  r.1 = []
  ∧ ∀ body k e, SearchOk body ∈ r.2 → body !! k = Some e →
                ∃ latest version time, e = LocalEntry latest version time.
Proof.
  intros Hq r. subst r. unfold search.
  assert (Hremote : remote_search world (uplinks self) = ([], ∅)).
  { destruct (uplinks self); simpl; [done|]. by rewrite Hq. }
  rewrite Hremote. simpl. split; [done|].
  intros body k e Hin Hke.
  unfold merge_with_local_packages in Hin.
  destruct (get_recent_packages world startkey) as [err|list].
  { apply list_elem_of_singleton in Hin. done. }
  destruct list as [|item list].
  { apply list_elem_of_singleton in Hin. by simplify_eq. }
  apply (merge_bodies self _ _ _) in Hin as [_ Hfrom].
  destruct (Hfrom k e Hke) as [?|(i & d & _ & _ & _ & Hentry)]; [done|].
  unfold local_entry in Hentry.
  destruct (versions d !! _) as [v|]; simpl in Hentry; [|done].
  simplify_eq. eauto.
Qed.

End search_properties.

Lemma remote_search_first_reachable_witness :
  remote_search (search_world false ["pkg"]) [npmjs; mirror; empty_uplink]
  = (["npmjs"; "mirror"],
     {[ "pkg" := RemoteEntry "summary of pkg on mirror";
        "left-pad" := RemoteEntry "summary of left-pad" ]}).
Proof.
  apply (remote_search_first_reachable (search_world false ["pkg"])
           [npmjs] mirror [empty_uplink]).
  - reflexivity.
  - repeat constructor.
  - reflexivity.
Defined.

Lemma search_callbacks_witness :
  (* "gone" cannot be read: one call with its error, no result *)
  (search (registry [mirror] stocked_local)
          (search_world false ["pkg"; "gone"]) "0").2
  = [SearchErr (ErrorWith 404 "no such package available")]
  (* every package can be read: one call with the result *)
  ∧ ∃ body, (search (registry [mirror] stocked_local)
               (search_world false ["pkg"; "untagged"]) "0").2
            = [SearchOk body].
Proof.
  split.
  - destruct (search_callbacks (registry [mirror] stocked_local)
                (search_world false ["pkg"; "gone"]) "0"
                [{| item_name := "pkg"; item_time := 1000 |};
                 {| item_name := "gone"; item_time := 1000 |}]
                eq_refl) as [_ Hfailed].
    + discriminate.
    + apply reverse_Permutation.
    + apply Hfailed. discriminate.
  - destruct (search_callbacks (registry [mirror] stocked_local)
                (search_world false ["pkg"; "untagged"]) "0"
                [{| item_name := "pkg"; item_time := 1000 |};
                 {| item_name := "untagged"; item_time := 1000 |}]
                eq_refl) as [Hok _].
    + discriminate.
    + apply reverse_Permutation.
    + apply Hok. reflexivity.
Defined.

Lemma search_body_entries_witness :
  ∃ body,
    SearchOk body
    ∈ (search (registry [mirror] stocked_local)
         (search_world false ["pkg"]) "0").2
    ∧ body !! "left-pad" = Some (RemoteEntry "summary of left-pad")
    ∧ body !! "pkg"
      = Some (LocalEntry (Some "2.0.0") (Version "local body of 2.0.0") 1000).
Proof.
  eexists. split; [vm_compute; apply list_elem_of_here|].
  match goal with
  | |- ?b !! _ = _ ∧ _ =>
      destruct (search_body_entries (registry [mirror] stocked_local)
                  (search_world false ["pkg"]) "0" b) as [Hkeep _]
  end.
  - vm_compute. apply list_elem_of_here.
  - split; [|reflexivity].
    rewrite Hkeep; [reflexivity|].
    intros item Hin. apply list_elem_of_In in Hin. simpl in Hin.
    destruct Hin as [<-|[]]. discriminate.
Defined.

Lemma search_local_only_witness :
  let r := search (registry [mirror] stocked_local)
             (search_world true ["pkg"]) "0" in
  r.1 = []
  ∧ r.2 = [SearchOk {[ "pkg" := LocalEntry (Some "2.0.0")
                                  (Version "local body of 2.0.0") 1000 ]}].
Proof.
  destruct (search_local_only (registry [mirror] stocked_local)
              (search_world true ["pkg"]) "0" eq_refl) as [Hnone _].
  split; [exact Hnone | reflexivity].
Defined.

(** ** More on the synchronisation pass *)

Section more_pass_properties.
Context `{Utils}.

(** X9. Every request of a pass goes to an uplink that the access policy
    permits for the package.  It carries the etag of the record of the
    uplink when the document has one, which is then not fresh, and the
    options of the caller when it has none. *)
Theorem sync_requests_are_conditional self loop name seed options k o :
  UplinkGetPackage k name o
  ∈ (_sync_package_with_uplinks self loop name seed options).1 →
  ∃ u table,
    u ∈ uplinks self ∧ Proxy.upname u = k
    ∧ proxy_access (config self) name k = true
    ∧ _uplinks (default (skeleton name) seed) = Some table
    ∧ match table !! k with
      | Some r => is_fresh (now loop) u r = false ∧ o = {| o_etag := etag r |}
      | None => o = options
      end.
Proof.
  unfold _sync_package_with_uplinks. simpl.
  destruct (mapM _ _) as [plan|] eqn:Hplan; [|intros Hin; inversion Hin].
  intros Hin.
  assert (Hcall : UplinkGetPackage k name o
            ∈ (λ rq, UplinkGetPackage (Proxy.upname (up rq)) name (_options rq))
                <$> requests plan).
  { destruct (run_callbacks _ _ _ _) as [[st errs]|]; [|done].
    destruct (st_exists st); simpl in Hin; [|done].
    apply elem_of_app in Hin as [?|Hin%list_elem_of_singleton]; done. }
  apply list_elem_of_fmap in Hcall as (rq & Heq & Hrq). simplify_eq.
  apply elem_of_requests in Hrq.
  apply (plan_lookup _ _ _ _ _ Hplan) in Hrq as [Hup Hd].
  apply list_elem_of_lookup_2, permitted_uplink in Hup as [Hup Hacc].
  unfold dispatch in Hd.
  destruct (_uplinks (default (skeleton name) seed)) as [table|] eqn:Ht;
    simpl in Hd; [|done].
  exists (up rq), table. split_and!; [done..|].
  destruct (table !! Proxy.upname (up rq)) as [r|]; [|by simplify_eq].
  destruct (is_fresh (now loop) (up rq) r); by simplify_eq.
Qed.

Lemma on_response_keep config name u r st st' slot :
  on_response config name u r st = Some (st', slot) →
  (∀ i v, versions (st_pkginfo st) !! i = Some v →
          versions (st_pkginfo st') !! i = Some v)
  ∧ (st_exists st = true → st_exists st' = true).
Proof.
  intros Hon. split.
  - unfold on_response in Hon.
    assert (Htouch : ∀ d', touch_fetched (Proxy.upname u) (Proxy.at_time r)
                             (st_pkginfo st) = Some d' →
                           versions d' = versions (st_pkginfo st)).
    { by intros d' (t & rec & _ & _ & ->)%touch_fetched_Some. }
    destruct (Proxy.err r) as [err|]; simpl in Hon.
    + destruct (status_is err 304); simpl in Hon.
      * destruct (touch_fetched _ _ _) as [d'|] eqn:Hd'; simpl in Hon; [|done].
        simplify_eq. simpl. by rewrite (Htouch d').
      * by simplify_eq.
    + destruct (Proxy.up_res r) as [d|]; [|by simplify_eq].
      destruct (validate_metadata d name); [by simplify_eq|].
      destruct (store_record _ _ _) as [d'|] eqn:Hd'; simpl in Hon; [|done].
      apply store_record_Some in Hd' as (t & _ & ->).
      match type of Hon with
      | context [try_merge_versions ?l ?u ?c] =>
          destruct (try_merge_versions_spec l u c) as (Hvs & _);
          assert (Hst : st_pkginfo st' = (try_merge_versions l u c).1)
            by (destruct (try_merge_versions l u c) as [? [?|]];
                simpl in Hon; by simplify_eq)
      end.
      intros i v Hv. rewrite Hst, Hvs, copy_new_versions_lookup.
      simpl. by rewrite Hv.
  - destruct (on_response_slot _ _ _ _ _ _ _ Hon) as [_ ->]. by intros ->.
Qed.

Lemma run_callbacks_keep config name rqs st errs st' errs' :
  run_callbacks config name rqs (st, errs) = Some (st', errs') →
  length errs' = length errs
  ∧ (∀ i v, versions (st_pkginfo st) !! i = Some v →
            versions (st_pkginfo st') !! i = Some v)
  ∧ (st_exists st = true → st_exists st' = true).
Proof.
  revert st errs. induction rqs as [|rq rqs IH]; intros st errs Hrun;
    simpl in Hrun.
  - by simplify_eq.
  - unfold complete in Hrun. simpl in Hrun.
    destruct (on_response config name (up rq) _ st) as [[st1 slot]|] eqn:Hon;
      simpl in Hrun; [|done].
    destruct (on_response_keep _ _ _ _ _ _ _ Hon) as [Hv He].
    destruct (IH _ _ Hrun) as (Hlen & Hv' & He').
    rewrite length_insert in Hlen. auto.
Qed.

(** X10. A package that exists locally is never reported missing by a
    pass.  Unless a callback throws, the pass ends by handing the merged
    document to [update_versions], with every version of the local
    document under its key and with its body, and the caller gets what
    [update_versions] answers, with one entry per permitted uplink in
    the list of errors. *)
Theorem sync_persists_local_package self loop name seed options :
  let r := _sync_package_with_uplinks self loop name (Some seed) options in
  r.2 ≠ SyncThrown →
  ∃ requests merged errs,
    r.1 = requests ++ [LocalUpdateVersions name merged]
    ∧ (∀ i v, versions seed !! i = Some v → versions merged !! i = Some v)
    ∧ length errs = length (permitted self name)
    ∧ r.2 = match Local.update_versions (local self) name merged with
            | Local.Err err => SyncCallback (Some err) None None
            | Local.Ok pkginfo => SyncCallback None (Some pkginfo) (Some errs)
            end.
Proof.
  intros r. subst r. unfold _sync_package_with_uplinks. simpl.
  destruct (mapM _ _) as [plan|]; [|done].
  destruct (run_callbacks _ _ _ _) as [[st errs]|] eqn:Hrun; [|done].
  destruct (run_callbacks_keep _ _ _ _ _ _ _ Hrun) as (Hlen & Hv & He).
  simpl in He. rewrite He by done. simpl. intros _.
  eexists _, (st_pkginfo st), errs. split_and!; [done|done| |done].
  by rewrite Hlen, length_replicate.
Qed.

End more_pass_properties.

Lemma sync_persists_local_package_witness :
  let self := registry [npmjs; mirror] stocked_local in
  let r := _sync_package_with_uplinks self last_first "pkg" (Some epoch_doc)
             no_options in
  ∃ requests merged errs,
    r.1 = requests ++ [LocalUpdateVersions "pkg" merged]
    ∧ versions merged !! "2.0.0" = Some (Version "local body of 2.0.0")
    ∧ length errs = 2%nat
    ∧ r.2 = SyncCallback None (Some merged) (Some errs).
Proof.
  intros self r.
  destruct (sync_persists_local_package self last_first "pkg" epoch_doc
              no_options) as (requests & merged & errs & Hfx & Hv & Hlen & Hr).
  - vm_compute. discriminate.
  - exists requests, merged, errs. split; [exact Hfx|]. split.
    + apply Hv. reflexivity.
    + split; [exact Hlen | exact Hr].
Defined.

Section failing_uplinks.
Context `{Utils}.

(** An answer that is an error other than 304 leaves the state alone. *)
Lemma on_response_failed config name u r st e :
  response_error name r = Some e → not_modified r = false →
  on_response config name u r st = Some (st, Some e).
Proof.
  unfold response_error, not_modified. intros He Hnm.
  destruct (Proxy.err r) as [err|] eqn:Herr.
  - simplify_eq. apply on_response_error; [done|]. by apply status_is_false.
  - destruct (Proxy.up_res r) as [d|] eqn:Hd.
    + by apply (on_response_invalid _ _ _ _ _ d).
    + simplify_eq. by apply on_response_no_data.
Qed.

Lemma run_callbacks_failed config name rqs st errs :
  (∀ rq, rq ∈ rqs →
     response_error name (request_answer name rq) ≠ None
     ∧ not_modified (request_answer name rq) = false) →
  run_callbacks config name rqs (st, errs)
  = Some (st, foldl (λ e rq, <[ index rq :=
                       response_error name (request_answer name rq) ]> e)
                    errs rqs).
Proof.
  revert errs. induction rqs as [|rq rqs IH]; intros errs Hfail; simpl; [done|].
  destruct (Hfail rq) as [Herr Hnm]; [set_solver|].
  destruct (response_error name (request_answer name rq)) as [e|] eqn:He; [|done].
  unfold complete. simpl. fold (request_answer name rq).
  rewrite (on_response_failed _ _ _ _ _ e He Hnm). simpl.
  apply IH. intros rq' Hin. apply Hfail. set_solver.
Qed.

Lemma omap_imap_Some {A B} (g : nat → A → B) (l : list A) :
  omap id (imap (λ n x, Some (g n x)) l) = imap g l.
Proof.
  revert g. induction l as [|x l IH]; intros g; simpl; [done|].
  f_equal. apply (IH (λ n, g (S n))).
Qed.

Lemma requests_all_called options (ups : list Proxy.t) :
  requests ((λ u, (u, Call options)) <$> ups)
  = imap (λ i u, {| index := i; up := u; _options := options |}) ups.
Proof.
  unfold requests. rewrite imap_fmap.
  etrans; [|apply (omap_imap_Some
                     (λ i u, {| index := i; up := u; _options := options |}))].
  f_equal.
Qed.

(** The pass over a package that no source knows: every permitted
    uplink is asked once, in order, nothing is written, and the caller
    gets a 404 with the error of every uplink. *)
Lemma sync_not_found_eq self loop name options :
  completes_each_once loop →
  let ups := permitted self name in
  let answer u := Proxy.get_package u name options in
  (∀ u, u ∈ ups → response_error name (answer u) ≠ None
                  ∧ not_modified (answer u) = false) →
  _sync_package_with_uplinks self loop name None options
  = ((λ u, UplinkGetPackage (Proxy.upname u) name options) <$> ups,
     SyncCallback (Some (ErrorWith 404 "no such package available")) None
       (Some ((λ u, response_error name (answer u)) <$> ups))).
Proof.
  intros Hloop ups answer Hfail. unfold _sync_package_with_uplinks. simpl.
  fold ups. rewrite unseeded_plan.
  set (rqs := requests ((λ u, (u, Call options)) <$> ups)).
  assert (Hfails : ∀ rq, rq ∈ completion loop rqs →
            response_error name (request_answer name rq) ≠ None
            ∧ not_modified (request_answer name rq) = false).
  { intros rq Hrq. rewrite (Hloop rqs) in Hrq.
    apply unseeded_requests in Hrq as [Hup Ho].
    unfold request_answer. rewrite Ho. apply Hfail.
    by eapply list_elem_of_lookup_2. }
  pose proof (run_callbacks_failed (config self) name (completion loop rqs)
                {| st_pkginfo := skeleton name; st_exists := false |}
                (replicate (length ups) None) Hfails) as Hrun.
  rewrite Hrun.
  destruct (unseeded_callbacks self loop name options _ _ Hloop Hrun)
    as (Hslots & _).
  fold ups in Hslots.
  rewrite (slots_all_failed _ _ _ _ _ Hslots (λ u Hu, proj1 (Hfail u Hu))).
  simpl. f_equal.
  subst rqs. rewrite requests_all_called, fmap_imap.
  apply (imap_const (λ u, UplinkGetPackage (Proxy.upname u) name options)).
Qed.

(** X11. A pass without a local document in which every permitted
    uplink fails (with an error other than 304): each of them is asked
    once, in the order of the configuration and with the options of the
    caller, the local store is not written, and the caller gets the
    error 404 together with the error of every uplink, in that order. *)
Theorem sync_reports_unknown_package self loop name options :
  completes_each_once loop →
  (∀ u, u ∈ permitted self name →
     response_error name (Proxy.get_package u name options) ≠ None
     ∧ not_modified (Proxy.get_package u name options) = false) →
  _sync_package_with_uplinks self loop name None options
  = ((λ u, UplinkGetPackage (Proxy.upname u) name options)
       <$> permitted self name,
     SyncCallback (Some (ErrorWith 404 "no such package available")) None
       (Some ((λ u, response_error name (Proxy.get_package u name options))
                <$> permitted self name))).
Proof. intros Hloop Hfail. by apply sync_not_found_eq. Qed.

End failing_uplinks.

Section positional_errors.
Context `{Utils}.

(** X12. The list of errors that a pass hands to its caller has one
    entry per permitted uplink, at the position of the uplink, in
    whatever order the answers arrived: nothing for an uplink that was
    skipped as fresh; the error of the answer for an uplink that answered
    with an error, without a document or with an invalid document; and
    for an uplink that sent a valid document, nothing, or the error that
    [tag_version] threw while the document was merged.  Where
    [tag_version] throws on no tag of the documents of the uplinks, the
    entry of every uplink that was called is the error of its answer. *)
Theorem sync_errors_are_positional self loop name seed options
  err result errs :
  completes_each_once loop →
  (_sync_package_with_uplinks self loop name seed options).2
  = SyncCallback err result (Some errs) →
  let pkginfo := default (skeleton name) seed in
  let ups := permitted self name in
  length errs = length ups
  ∧ (∀ i u, ups !! i = Some u →
       match dispatch (now loop) pkginfo options u with
       | Some (Call o) =>
           ∃ slot, errs !! i = Some slot
                   ∧ slot_of (config self) name (Proxy.get_package u name o) slot
       | _ => errs !! i = Some None
       end)
  ∧ ((∀ u o up_res, u ∈ ups →
        Proxy.up_res (Proxy.get_package u name o) = Some up_res →
        reconciles (config self) up_res) →
     errs = uplink_slot (now loop) pkginfo options name <$> ups).
Proof.
  intros Hloop. unfold _sync_package_with_uplinks. simpl.
  set (doc := default (skeleton name) seed).
  set (ups := permitted self name).
  destruct (mapM _ _) as [plan|] eqn:Hplan; [|done].
  destruct (run_callbacks _ _ _ _) as [[st errs0]|] eqn:Hrun; [|done].
  intros Hres.
  assert (errs = errs0) as ->.
  { destruct (st_exists st); simpl in Hres; [|by simplify_eq].
    destruct (Local.update_versions _ _ _); by simplify_eq. }
  clear Hres.
  destruct (sync_slots self loop name seed options plan st errs0 Hloop Hplan Hrun)
    as (Hlen & Hslots & _).
  fold ups in Hlen, Hslots. fold doc in Hslots.
  split_and!; [done|done|].
  intros Hrec. apply list_eq. intros i. rewrite list_lookup_fmap.
  destruct (ups !! i) as [u|] eqn:Hu; simpl.
  - specialize (Hslots i u Hu). unfold uplink_slot.
    destruct (dispatch (now loop) doc options u) as [[|o]|]; [done| |done].
    destruct Hslots as (slot & -> & Hslot). f_equal.
    apply (slot_of_reconciled (config self)); [|done].
    intros d Hd. eapply Hrec; [|done]. by eapply list_elem_of_lookup_2.
  - apply lookup_ge_None. rewrite Hlen. by apply lookup_ge_None.
Qed.

End positional_errors.

(** ** More on the facade *)

Section more_facade_properties.
Context `{Utils}.

Lemma check_err_results_all_404 errs :
  Forall (λ o, ∃ err, o = Some err ∧ status err = Some 404%Z) errs →
  check_err_results errs = DoneCallback None.
Proof.
  induction 1 as [|o errs (err & -> & Hs) _ IH]; simpl; [done|].
  apply status_is_true in Hs. by rewrite Hs.
Qed.

Lemma not_found_is_not_304 name r err :
  response_error name r = Some err → status err = Some 404%Z →
  response_error name r ≠ None ∧ not_modified r = false.
Proof.
  intros He Hs. split; [by rewrite He|].
  unfold response_error in He. unfold not_modified.
  destruct (Proxy.err r) as [e|]; [|done].
  simplify_eq. apply status_is_false. by rewrite Hs.
Qed.

(** X13. A name that the local store does not hold (404) and of which
    every permitted uplink says 404 is published: after the read of the
    local store and one request to each permitted uplink, the package is
    created in the local store, nothing else is written, and the caller
    gets what the local store answers to the creation. *)
Theorem add_package_creates_unknown_name self loop name metadata e :
  completes_each_once loop →
  Local.get_package (local self) name = Local.Err e →
  status e = Some 404%Z →
  (∀ u, u ∈ permitted self name →
     ∃ err, response_error name (Proxy.get_package u name no_options) = Some err
            ∧ status err = Some 404%Z) →
  add_package self loop name metadata
  = (LocalGetPackage name
       :: ((λ u, UplinkGetPackage (Proxy.upname u) name no_options)
             <$> permitted self name)
       ++ [LocalAddPackage name metadata],
     DoneCallback (Local.add_package (local self) name metadata)).
Proof.
  intros Hloop Hlocal Hs H404.
  unfold add_package, check_package_local. rewrite Hlocal.
  apply status_is_true in Hs. rewrite Hs. simpl.
  unfold check_package_remote.
  rewrite (sync_not_found_eq self loop name no_options Hloop).
  - simpl. rewrite check_err_results_all_404; [done|].
    apply Forall_fmap, Forall_forall. intros u Hu. simpl.
    destruct (H404 u Hu) as (err & Herr & Hst). eauto.
  - intros u Hu. destruct (H404 u Hu) as (err & Herr & Hst).
    by eapply not_found_is_not_304.
Qed.

Lemma dispatch_is_Some (now : Z) pkginfo options u table :
  _uplinks pkginfo = Some table → is_Some (dispatch now pkginfo options u).
Proof.
  intros Ht. unfold dispatch. rewrite Ht. simpl.
  destruct (table !! Proxy.upname u) as [r|]; [|done].
  by destruct (is_fresh now u r).
Qed.

(** X14. While every permitted uplink is skipped as fresh or fails on
    the request that is sent to it (with an error other than 304),
    [get_package] still serves a package that the local store holds:
    the local document is handed to [update_versions] as it was read, and
    the caller gets what the store hands back, post-processed, together
    with the list of errors, which has the error of every uplink that
    was called and nothing for the ones that were skipped. *)
Theorem get_package_serves_local_copy self loop name options seed table stored :
  completes_each_once loop →
  Local.get_package (local self) name = Local.Ok seed →
  _uplinks seed = Some table →
  (∀ u o, u ∈ permitted self name →
     dispatch (now loop) seed options u = Some (Call o) →
     response_error name (Proxy.get_package u name o) ≠ None
     ∧ not_modified (Proxy.get_package u name o) = false) →
  Local.update_versions (local self) name seed = Local.Ok stored →
  ∃ requests,
    get_package self loop name options
    = (LocalGetPackage name :: requests ++ [LocalUpdateVersions name seed],
       SyncCallback None (Some (post_process (config self) stored))
         (Some (uplink_slot (now loop) seed options name
                  <$> permitted self name))).
Proof.
  intros Hloop Hlocal Ht Hfail Hstore.
  unfold get_package. rewrite Hlocal. simpl.
  unfold _sync_package_with_uplinks. simpl.
  destruct (mapM _ _) as [plan|] eqn:Hplan.
  2:{ apply mapM_None, Exists_exists in Hplan as (u & _ & Hnone).
      destruct (dispatch_is_Some (now loop) seed options u table Ht) as [d Hd].
      by rewrite Hd in Hnone. }
  pose proof (plan_lookup _ _ _ _ _ Hplan) as Hlookup.
  assert (Hfails : ∀ rq, rq ∈ completion loop (requests plan) →
            response_error name (request_answer name rq) ≠ None
            ∧ not_modified (request_answer name rq) = false).
  { intros rq Hrq. rewrite (Hloop _) in Hrq.
    apply elem_of_requests, Hlookup in Hrq as [Hup Hd].
    apply Hfail; [by eapply list_elem_of_lookup_2|done]. }
  pose proof (run_callbacks_failed (config self) name
                (completion loop (requests plan))
                {| st_pkginfo := seed; st_exists := true |}
                (replicate (length (permitted self name)) None) Hfails) as Hrun.
  rewrite Hrun. simpl. rewrite Hstore. eexists. do 3 f_equal.
  destruct (sync_slots self loop name (Some seed) options plan _ _ Hloop Hplan Hrun)
    as (Hlen & Hslots & _).
  simpl in Hslots. apply list_eq. intros i. rewrite list_lookup_fmap.
  destruct (permitted self name !! i) as [u|] eqn:Hu; simpl.
  - specialize (Hslots i u Hu). unfold uplink_slot.
    destruct (dispatch (now loop) seed options u) as [[|o]|] eqn:Hd;
      [done| |done].
    destruct Hslots as (slot & -> & Hslot). f_equal.
    unfold slot_of in Hslot.
    destruct (response_error name (Proxy.get_package u name o)) eqn:He; [done|].
    destruct (Hfail u o) as [Hne _]; [by eapply list_elem_of_lookup_2|done|done].
  - apply lookup_ge_None. rewrite Hlen. by apply lookup_ge_None.
Qed.

(** X15. The tarball of a package that no source knows.  When the local
    stream reports 404 before opening, the local store does not hold
    the package and every permitted uplink fails (with an error other
    than 304), [get_tarball] emits the error 404 of the synchronisation
    pass; it asks each permitted uplink once and writes nothing. *)
Theorem get_tarball_unknown_package self loop name filename err e :
  completes_each_once loop →
  status err = Some 404%Z →
  Local.get_package (local self) name = Local.Err e →
  (∀ u, u ∈ permitted self name →
     response_error name (Proxy.get_package u name no_options) ≠ None
     ∧ not_modified (Proxy.get_package u name no_options) = false) →
  get_tarball self loop name filename [EvError err] get_tarball_start
  = Some {| is_open := false; rstream := false;
            output := [OutError (ErrorWith 404 "no such package available")];
            effects := LocalGetPackage name
                       :: ((λ u, UplinkGetPackage (Proxy.upname u) name no_options)
                             <$> permitted self name) |}.
Proof.
  intros Hloop Hs Hlocal Hfail. simpl.
  apply status_is_true in Hs. rewrite Hs. simpl.
  unfold locate. rewrite Hlocal. simpl.
  by rewrite (sync_not_found_eq self loop name no_options Hloop Hfail).
Qed.

Lemma project_whitelist_keeps result :
  _rev (project_whitelist result) = _rev result
  ∧ name (project_whitelist result) = name result
  ∧ readme (project_whitelist result) = readme result.
Proof.
  unfold project_whitelist.
  apply (set_fold_ind_L (λ r _,
    _rev r = _rev result ∧ name r = name result ∧ readme r = readme result)).
  - done.
  - intros i X r _ (Hr & Hn & Hm). case_bool_decide as Hw; [done|].
    unfold delete_key, unless_key. simpl.
    rewrite !bool_decide_false; [done|..];
      intros ->; apply Hw; unfold whitelist; set_solver.
Qed.

Lemma not_whitelisted {A} key (o : option A) (keys : gset string) :
  present key o ⊆ keys → keys ⊆ list_to_set whitelist → key ∉ whitelist →
  o = None.
Proof.
  intros Hp Hk Hnot. destruct o as [x|]; [|done].
  assert (Hin : key ∈ (list_to_set whitelist : gset string)).
  { apply Hk, Hp. simpl. by apply elem_of_singleton. }
  by apply elem_of_list_to_set in Hin.
Qed.

Lemma post_process_hides config stored :
  let result := post_process config stored in
  _uplinks result = None ∧ _distfiles result = None
  ∧ _attachments result = Some ∅
  ∧ _rev result = _rev stored ∧ name result = name stored
  ∧ readme result = readme stored ∧ versions result = versions stored.
Proof.
  destruct (project_whitelist_spec stored) as (Hv & _ & Hkeys).
  destruct (project_whitelist_keeps stored) as (Hr & Hn & Hm).
  cbv zeta. unfold post_process. simpl.
  assert (Hnot : ∀ key, key ∈ ["_uplinks"; "_distfiles"] → key ∉ whitelist).
  { intros key Hkey Hw. apply list_elem_of_In in Hkey, Hw. simpl in *.
    intuition (subst; discriminate). }
  split_and!; try done.
  - apply (not_whitelisted "_uplinks" _ (own_keys (project_whitelist stored)));
      [|exact Hkeys|apply Hnot, list_elem_of_In; simpl; tauto].
    unfold own_keys. intros k Hk. rewrite !elem_of_union. tauto.
  - apply (not_whitelisted "_distfiles" _ (own_keys (project_whitelist stored)));
      [|exact Hkeys|apply Hnot, list_elem_of_In; simpl; tauto].
    unfold own_keys. intros k Hk. rewrite !elem_of_union. tauto.
Qed.

(** X16. A document that [get_package] returns never carries the
    bookkeeping of the storage: the records of the uplinks and the table
    of distribution files are removed and [_attachments] is empty,
    whatever the local store and the uplinks answered, while the
    revision, the name, the readme and the versions are those of the
    document that the synchronisation pass handed back. *)
Theorem get_package_hides_bookkeeping self loop pkg options fx result errs :
  get_package self loop pkg options
  = (fx, SyncCallback None (Some result) errs) →
  _uplinks result = None ∧ _distfiles result = None
  ∧ _attachments result = Some ∅
  ∧ ∃ seed stored,
      (_sync_package_with_uplinks self loop pkg seed options).2
      = SyncCallback None (Some stored) errs
      ∧ _rev result = _rev stored ∧ name result = name stored
      ∧ readme result = readme stored ∧ versions result = versions stored.
Proof.
  unfold get_package.
  set (seed := match Local.get_package (local self) pkg with
               | Local.Ok data => Some data
               | Local.Err _ => None
               end).
  destruct (match Local.get_package (local self) pkg with
            | Local.Err err => _
            | Local.Ok _ => None
            end); [intros; by simplify_eq|].
  destruct (_sync_package_with_uplinks self loop pkg seed options).2
    as [|[err|] [stored|] errs'] eqn:Hs; intros Hget; simplify_eq.
  destruct (post_process_hides (config self) stored)
    as (Hu & Hd & Ha & Hr & Hn & Hm & Hv).
  split_and!; [done..|]. by exists seed, stored.
Qed.

End more_facade_properties.

Section more_listing_properties.
Context `{Utils}.

(** X17. [get_local] accounts for every name of the local list exactly
    once: a name gives a package, or a warning, or its read failed. *)
Theorem get_local_accounts_for_every_name self :
  let locals := localList (config self) in
  let r := get_local self in
  (length (packages r) + length (warnings r)
   + length (List.filter (read_fails self) locals))%nat
  = length locals.
Proof.
  intros locals r. subst r. unfold get_local. rewrite getPackage_spec. simpl.
  subst locals. generalize (localList (config self)). intros l.
  induction l as [|n l IH]; [done|].
  cbn [omap list_omap List.filter].
  unfold listed at 1, warned at 1, read_fails at 1.
  destruct (Local.get_package (local self) n) as [e|info];
    [cbn [length]; lia|].
  destruct (latest_version info); cbn [length]; lia.
Qed.

Lemma refresh_tags_readme up config d (tags : gmap string TagVal) :
  let d' := map_fold (refresh_tag up config) d tags in
  (readme d' = readme d ∨ readme d' = readme up)
  ∧ (tags !! "latest" = None → readme d' = readme d).
Proof.
  cbv zeta.
  apply (map_fold_weak_ind (λ r m,
    (readme r = readme d ∨ readme r = readme up)
    ∧ (m !! "latest" = None → readme r = readme d))).
  - by split; [left|].
  - intros i v m r Hi [IH1 IH2]. unfold refresh_tag. cbv zeta.
    destruct (decide (i = "latest")) as [->|Hne].
    + rewrite lookup_insert_eq. split; [|done].
      destruct (_ && _); simpl; [by right|done].
    + rewrite lookup_insert_ne, bool_decide_false by done. simpl. done.
Qed.

(** X18. Besides the versions, the tags and the readme, a merge leaves
    the local document as it is, the records of the uplinks included.
    The version keys afterwards are those of both documents.  The readme
    is the local one or the remote one, and it is the local one when the
    remote document has no tag [latest]. *)
Theorem merge_versions_frame local up config :
  let merged := _merge_versions local up config in
  _rev merged = _rev local ∧ name merged = name local
  ∧ _uplinks merged = _uplinks local ∧ _distfiles merged = _distfiles local
  ∧ _attachments merged = _attachments local ∧ others merged = others local
  ∧ dom (versions merged) = dom (versions local) ∪ dom (versions up)
  ∧ (readme merged = readme local ∨ readme merged = readme up)
  ∧ (dist_tags up !! "latest" = None → readme merged = readme local).
Proof.
  cbv zeta.
  pose proof (refresh_tags_frame up config
    (set_versions (copy_new_versions (versions local) (versions up)) local)
    (dist_tags up)) as Hf.
  pose proof (refresh_tags_readme up config
    (set_versions (copy_new_versions (versions local) (versions up)) local)
    (dist_tags up)) as [Hr1 Hr2].
  fold (_merge_versions local up config) in Hf, Hr1, Hr2.
  unfold same_frame in Hf. simpl in *.
  destruct Hf as (? & ? & Hv & ? & ? & ? & ?).
  split_and!; try done.
  rewrite Hv. apply set_eq. intros i.
  rewrite elem_of_union, !elem_of_dom, copy_new_versions_lookup.
  destruct (versions local !! i) as [v|]; [|by rewrite is_Some_alt; naive_solver].
  split; eauto.
Qed.

End more_listing_properties.

(** ** The extra statements on the example registries *)

Lemma sync_requests_are_conditional_witness :
  ∃ u table,
    u ∈ uplinks (registry [npmjs; mirror] stocked_local)
    ∧ Proxy.upname u = "mirror"
    ∧ proxy_access example_config "pkg" "mirror" = true
    ∧ _uplinks epoch_doc = Some table
    ∧ match table !! "mirror" with
      | Some r => is_fresh (now in_order) u r = false
                  ∧ {| o_etag := Some "m-1" |} = {| o_etag := etag r |}
      | None => {| o_etag := Some "m-1" |} = no_options
      end.
Proof.
  apply (sync_requests_are_conditional (registry [npmjs; mirror] stocked_local)
           in_order "pkg" (Some epoch_doc) no_options "mirror"
           {| o_etag := Some "m-1" |}).
  vm_compute. apply list_elem_of_In. simpl. tauto.
Defined.

Lemma sync_reports_unknown_package_witness :
  _sync_package_with_uplinks
    (registry [empty_uplink; mirror; silent] empty_local)
    last_first "new" None no_options
  = ([UplinkGetPackage "empty" "new" no_options;
      UplinkGetPackage "mirror" "new" no_options;
      UplinkGetPackage "silent" "new" no_options],
     SyncCallback (Some (ErrorWith 404 "no such package available")) None
       (Some [Some not_found; Some (PlainError "ETIMEDOUT");
              Some (ErrorWith 500 "no data")])).
Proof.
  apply (sync_reports_unknown_package
           (registry [empty_uplink; mirror; silent] empty_local) last_first
           "new" no_options last_first_completes).
  intros u Hu. each_uplink Hu; split; (discriminate || reflexivity).
Defined.

Lemma sync_errors_are_positional_witness :
  (* mirror answers 304 and npmjs a valid document *)
  (∃ err result errs,
     (_sync_package_with_uplinks (registry [mirror; npmjs] stocked_local)
        last_first "pkg" (Some epoch_doc) no_options).2
     = SyncCallback err result (Some errs)
     ∧ errs = [Some (ErrorWith 304 "not modified"); None])
  (* the merge of the document of legacy throws, npmjs answers a valid
     document: the error caught is at the position of legacy *)
  ∧ ∃ err result errs slot,
      (_sync_package_with_uplinks (registry [legacy; npmjs] empty_local)
         last_first "pkg" None no_options).2
      = SyncCallback err result (Some errs)
      ∧ errs = [Some (PlainError "Invalid Version"); None]
      ∧ errs !! 0%nat = Some slot
      ∧ slot_of example_config "pkg"
          (Proxy.get_package legacy "pkg" no_options) slot.
Proof.
  split.
  - destruct (_sync_package_with_uplinks (registry [mirror; npmjs] stocked_local)
                last_first "pkg" (Some epoch_doc) no_options).2
      as [|err result [errs|]] eqn:Hs;
      try (exfalso; vm_compute in Hs; discriminate Hs).
    exists err, result, errs. split; [reflexivity|].
    destruct (sync_errors_are_positional
                (registry [mirror; npmjs] stocked_local) last_first "pkg"
                (Some epoch_doc) no_options err result errs
                last_first_completes Hs) as (_ & _ & Hrec).
    rewrite Hrec; [reflexivity|].
    intros u o d Hu Hd. each_uplink Hu.
    + destruct o as [[e|]]; discriminate Hd.
    + injection Hd as <-. apply remote_doc_reconciles.
  - destruct (_sync_package_with_uplinks (registry [legacy; npmjs] empty_local)
                last_first "pkg" None no_options).2
      as [|err result [errs|]] eqn:Hs;
      try (exfalso; vm_compute in Hs; discriminate Hs).
    destruct (sync_errors_are_positional
                (registry [legacy; npmjs] empty_local) last_first "pkg"
                None no_options err result errs
                last_first_completes Hs) as (_ & Hpos & _).
    destruct (Hpos 0%nat legacy eq_refl) as (slot & Hslot & Hof).
    exists err, result, errs, slot. split; [reflexivity|].
    split; [|split; [exact Hslot | exact Hof]].
    vm_compute in Hs. by injection Hs as _ _ <-.
Defined.

Lemma add_package_creates_unknown_name_witness :
  add_package (registry [empty_uplink] empty_local) last_first "new" "{}"
  = ([LocalGetPackage "new"; UplinkGetPackage "empty" "new" no_options;
      LocalAddPackage "new" "{}"],
     DoneCallback None).
Proof.
  apply (add_package_creates_unknown_name
           (registry [empty_uplink] empty_local) last_first "new" "{}"
           (ErrorWith 404 "no such package available") last_first_completes
           eq_refl eq_refl).
  intros u Hu. each_uplink Hu. exists not_found. split; reflexivity.
Defined.

Lemma get_package_serves_local_copy_witness :
  let self := registry [npmjs; empty_uplink] stocked_local in
  (* npmjs would answer a valid document, but its record is fresh *)
  response_error "pkg" (Proxy.get_package npmjs "pkg" no_options) = None
  ∧ dispatch (now last_first) cached_doc no_options npmjs = Some Skip
  ∧ ∃ requests,
      get_package self last_first "pkg" no_options
      = (LocalGetPackage "pkg"
           :: requests ++ [LocalUpdateVersions "pkg" cached_doc],
         SyncCallback None (Some (post_process example_config cached_doc))
           (Some [None; Some not_found])).
Proof.
  intros self. split; [reflexivity|]. split; [reflexivity|].
  destruct (get_package_serves_local_copy self last_first "pkg" no_options
              cached_doc
              {[ "npmjs" := {| etag := Some "etag-1"; fetched := Some 900%Z |};
                 "mirror" := {| etag := Some "m-1"; fetched := Some 100%Z |} ]}
              cached_doc last_first_completes eq_refl eq_refl)
    as [requests Hget].
  - intros u o Hu Hd. each_uplink Hu.
    + vm_compute in Hd. discriminate Hd.
    + split; [discriminate | reflexivity].
  - reflexivity.
  - exists requests. exact Hget.
Defined.

Lemma get_tarball_unknown_package_witness :
  get_tarball (registry [empty_uplink] empty_local) last_first
    "new" "new-1.0.0.tgz" [EvError (ErrorWith 404 "no such file available")]
    get_tarball_start
  = Some {| is_open := false; rstream := false;
            output := [OutError (ErrorWith 404 "no such package available")];
            effects := [LocalGetPackage "new";
                        UplinkGetPackage "empty" "new" no_options] |}.
Proof.
  apply (get_tarball_unknown_package
           (registry [empty_uplink] empty_local) last_first
           "new" "new-1.0.0.tgz" (ErrorWith 404 "no such file available")
           (ErrorWith 404 "no such package available")
           last_first_completes eq_refl eq_refl).
  intros u Hu. each_uplink Hu. split; (discriminate || reflexivity).
Defined.

Lemma get_package_hides_bookkeeping_witness :
  ∃ result errs,
    (get_package (registry [npmjs] stocked_local) in_order "pkg" no_options).2
    = SyncCallback None (Some result) errs
    ∧ _uplinks cached_doc ≠ None
    ∧ _uplinks result = None ∧ _distfiles result = None.
Proof.
  destruct (get_package (registry [npmjs] stocked_local) in_order "pkg"
              no_options) as [fx res] eqn:Hr.
  assert (∃ result errs, res = SyncCallback None (Some result) errs)
    as (result & errs & ->).
  { pose proof Hr as Hr'. vm_compute in Hr'. injection Hr' as _ <-. eauto. }
  exists result, errs. split; [reflexivity|]. split; [discriminate|].
  destruct (get_package_hides_bookkeeping _ _ _ _ _ _ _ Hr)
    as (Hu & Hd & _). by split.
Defined.

Lemma merge_versions_frame_witness :
  let up := set_dist_tags {[ "beta" := TagStr "2.1.0" ]} remote_doc in
  let merged := _merge_versions cached_doc up example_config in
  _uplinks merged = _uplinks cached_doc
  ∧ dom (versions merged) = dom (versions cached_doc) ∪ dom (versions up)
  ∧ readme merged = Some "local readme".
Proof.
  intros up merged.
  destruct (merge_versions_frame cached_doc up example_config)
    as (_ & _ & Hu & _ & _ & _ & Hv & _ & Hr).
  split; [exact Hu|]. split; [exact Hv|].
  apply Hr. reflexivity.
Defined.
